(** * The call-ordering harness of [src/harness.js]

    A shallow embedding of [action], [all_permutations], [is_valid_sequence],
    [sequence_fits_pattern], [action_fits_pattern], [describe_permutation],
    [wait_for] and [test_correctness], together with the part of the
    JavaScript run time they rely on: values, exceptions, a heap of arrays,
    promise reactions and the job queue.

    Closures are represented by the variables they capture, arrays by their
    address in a heap, and the promise chain that [test_correctness] builds
    on [outcome] by the list of its reactions.  Promises follow Promises/A+:
    a reaction never runs before the code that registered it has returned,
    the reactions of a chain run in the order of the chain, and a handler
    that is not a function is ignored.  The order between the reactions of
    the harness and the code that the pattern leaves for later is not fixed
    by the program: a state carries the choices of the run time, and what
    is proved of every state holds in every order. *)

From stdpp Require Import base list strings gmap.
From Stdlib Require Import ZArith Lia.

(** ** JavaScript values and completions *)

(** The values that flow through the harness.  A promise is represented by
    the way it settles, an error object by a text that tells it from the
    others: the message that an engine gives to the errors it throws itself
    is not modelled. *)
Inductive jsval : Type :=
| VUndefined
| VNull
| VNum (n : Z)
| VStr (s : string)
| VError (message : string)
| VReport (passed : bool) (description : option string)
| VFulfilled (v : jsval)
| VRejected (e : jsval).

(** How the evaluation of a call ends: [return a] or [throw e]. *)
Inductive completion (A : Type) : Type :=
| Returned (a : A)
| Threw (e : jsval).
Arguments Returned {A} a.
Arguments Threw {A} e.

(** The caller's own mutable variables, which the outcome producers and the
    pattern under test may read and write. *)
Abbreviation World := (gmap string jsval).

(** ** Data model *)

(** An outcome producer is a function object: [oid] is its identity (what
    [===] compares), [fn_name] its [name] property, [fn_call] its body. *)
Record Outcome : Type := {
  oid : nat;
  fn_name : string;
  fn_call : World -> completion jsval * World
}.

(** The object returned by [action(name, ...outcomes)]: its [forEach]
    closure is represented by the two variables it captures. *)
Record Action : Type := {
  action_name : string;
  action_outcomes : list Outcome
}.

Definition action (name : string) (outcomes : list Outcome) : Action :=
  {| action_name := name; action_outcomes := outcomes |}.

(** The object [{name, outcome}] that [forEach] hands to its callback; a
    permutation is a list of them, and so is a recorded sequence. *)
Record Chosen : Type := {
  name : string;
  outcome : Outcome
}.

(** [forEach : (cb) => outcomes.forEach((outcome) => cb({name, outcome}))],
    with the callback's effect on the state [S] threaded through. *)
Definition forEach {S : Type} (a : Action) (cb : Chosen -> S -> S) (s : S) : S :=
  foldl (fun s outcome => cb {| name := action_name a; outcome := outcome |} s)
        s (action_outcomes a).

(** ** The permutation generator *)

Fixpoint all_permutations {S : Type} (args : list Action)
    (callback : list Chosen -> S -> S) (s : S) : S :=
  match args with
  | [] => callback [] s
  | permutations :: rest =>
      forEach permutations (fun permutation =>
        all_permutations rest (fun rest_permutation =>
          callback (permutation :: rest_permutation))) s
  end.

(** The permutations handed to the callback, in the order of the calls. *)
Definition visited (args : list Action) : list (list Chosen) :=
  all_permutations args (fun permutation acc => acc ++ [permutation]) [].

(** *** The Cartesian product, as the specification words it *)

Definition outcome_counts (args : list Action) : list nat :=
  map (fun a => length (action_outcomes a)) args.

Definition product (counts : list nat) : nat := foldr Nat.mul 1 counts.

(** The permutation number [idx] in nested order: [idx] is read as a
    mixed-radix numeral whose digits select the outcomes, the last action
    holding the least significant digit. *)
Fixpoint choice (args : list Action) (idx : nat) : option (list Chosen) :=
  match args with
  | [] => Some []
  | a :: rest =>
      let block := product (outcome_counts rest) in
      match action_outcomes a !! (idx / block), choice rest (idx mod block) with
      | Some o, Some p => Some ({| name := action_name a; outcome := o |} :: p)
      | _, _ => None
      end
  end.

(** The same enumeration as a list: for each outcome of the first action,
    in order, every permutation of the rest. *)
Fixpoint nested (args : list Action) : list (list Chosen) :=
  match args with
  | [] => [[]]
  | a :: rest =>
      o ← action_outcomes a;
      cons {| name := action_name a; outcome := o |} <$> nested rest
  end.

(** A permutation picks, for each action in order, one of its outcomes. *)
Definition picks (a : Action) (c : Chosen) : Prop :=
  name c = action_name a /\ outcome c ∈ action_outcomes a.

(** ** The sequence validator *)

(** An element of a template entry [[action, outcome_1, ...]]: a JavaScript
    array holds the action object and the outcome functions side by side,
    and nothing keeps [undefined] or [null] out of it. *)
Inductive TplItem : Type :=
| ItAction (a : Action)
| ItOutcome (o : Outcome)
| ItUndefined
| ItNull.

(** The [name] property of an element: of the action object, or of the
    function.  [undefined] and [null] have no property: reading one throws. *)
Definition item_name (it : TplItem) : option string :=
  match it with
  | ItAction a => Some (action_name a)
  | ItOutcome o => Some (fn_name o)
  | ItUndefined | ItNull => None
  end.

(** [valid_outcome === action_taken.outcome]: identity of references; no
    other value is identical to a function. *)
Definition same_reference (valid_outcome : TplItem) (o : Outcome) : bool :=
  match valid_outcome with
  | ItOutcome o' => Nat.eqb (oid o') (oid o)
  | ItAction _ | ItUndefined | ItNull => false
  end.

(** The TypeError that the engine throws itself, when a property of
    [undefined] or [null] is read or when what is called is not a function.
    Its message depends on the engine and is not modelled. *)
Definition type_error : jsval := VError "TypeError".

(** [valid_action[0]]: an index out of range gives [undefined]. *)
Definition first_item (valid_action : list TplItem) : TplItem :=
  default ItUndefined (valid_action !! 0).

(** The [for] loop of [action_fits_pattern], from [outcome_idx] on. *)
Fixpoint outcome_loop (action_taken : Chosen) (valid_outcomes : list TplItem) : bool :=
  match valid_outcomes with
  | [] => false
  | valid_outcome :: later =>
      if same_reference valid_outcome (outcome action_taken) then true
      else outcome_loop action_taken later
  end.

Definition action_fits_pattern (action_taken : Chosen) (valid_action : list TplItem) : bool :=
  if Nat.eqb (length valid_action) 1 then true
  else outcome_loop action_taken (drop 1 valid_action).

(** The [for] loop of [sequence_fits_pattern], entered with both lists of
    the same length; [valid_action[0].name] throws when the entry is an
    empty array or begins with [undefined] or [null]. *)
Fixpoint fits_loop (sequence : list Chosen) (valid_sequence : list (list TplItem))
    : completion bool :=
  match sequence, valid_sequence with
  | action_taken :: sequence', valid_action :: valid_sequence' =>
      match item_name (first_item valid_action) with
      | None => Threw type_error
      | Some valid_name =>
          if negb (String.eqb (name action_taken) valid_name) then Returned false
          else if negb (action_fits_pattern action_taken valid_action) then Returned false
          else fits_loop sequence' valid_sequence'
      end
  | _, _ => Returned true
  end.

Definition sequence_fits_pattern (sequence : list Chosen)
    (valid_sequence : list (list TplItem)) : completion bool :=
  if negb (Nat.eqb (length sequence) (length valid_sequence)) then Returned false
  else fits_loop sequence valid_sequence.

(** [valid_sequences.forEach] with the flag [is_valid]; an exception leaves
    the loop. *)
Fixpoint valid_loop (sequence : list Chosen) (valid_sequences : list (list (list TplItem)))
    (is_valid : bool) : completion bool :=
  match valid_sequences with
  | [] => Returned is_valid
  | valid_sequence :: later =>
      match sequence_fits_pattern sequence valid_sequence with
      | Threw e => Threw e
      | Returned fits =>
          valid_loop sequence later (if fits then true else is_valid)
      end
  end.

Definition is_valid_sequence (sequence : list Chosen)
    (valid_sequences : list (list (list TplItem))) : completion bool :=
  valid_loop sequence valid_sequences false.

(** *** Templates as they are authored *)

(** [[Action]] or [[Action, outcome_1, ..., outcome_k]]. *)
Record Constraint : Type := {
  constrained : Action;
  allowed : list Outcome
}.

Definition entry (c : Constraint) : list TplItem :=
  ItAction (constrained c) :: map ItOutcome (allowed c).

Definition template (t : list Constraint) : list (list TplItem) := map entry t.

(** Position-wise match of one record against one constraint. *)
Definition admits (c : Constraint) (r : Chosen) : Prop :=
  name r = action_name (constrained c) /\
  (length (entry c) = 1 \/ exists o, o ∈ allowed c /\ oid o = oid (outcome r)).

(** Structural match of a sequence against a template. *)
Definition matches (s : list Chosen) (t : list Constraint) : Prop :=
  length s = length t /\
  forall i r c, s !! i = Some r -> t !! i = Some c -> admits c r.

(** ** Failure messages *)

(** [Array.prototype.join]. *)
Definition join (sep : string) (parts : list string) : string :=
  String.concat sep parts.

(** The line feed written [\n] in the source. *)
Definition LF : string := String (Ascii.ascii_of_nat 10) EmptyString.

Definition describe_permutation (permutation : list Chosen) : string :=
  join (LF +:+ "            ")
       (map (fun p => name p +:+ " -> " +:+ fn_name (outcome p)) permutation).

Definition failure_message (permutation sequence : list Chosen) : string :=
  "Pattern failed validation" +:+ LF +:+
  "  Scenario: " +:+ describe_permutation permutation +:+ LF +:+
  "  Sequence: " +:+ join ", " (map name sequence).

(** ** The run time: heap, promise chain and job queue *)

(** The pattern under test is opaque to the harness; what it can do is
    return, throw, call one of its arguments and go on with what the call
    produced, leave code behind that runs in a later job (the callback of a
    [then] or of a timer, the rest of an [async] function), or read and
    write the variables it closes over and go on with what it read: a
    JavaScript function can keep state from one invocation to the next. *)
Inductive Code : Type :=
| Return (v : jsval)
| Throw (e : jsval)
| Call (i : nat) (k : completion jsval -> Code)
| Later (deferred : Code) (k : Code)
| Own (update : World -> World) (k : World -> Code).

(** The closure [() => { sequence.push(action); return action.outcome(); }]:
    the array it captures, by its address in the heap, and the action. *)
Record Tracked : Type := {
  sequence_ref : nat;
  tracked_action : Chosen
}.

(** What [test_correctness] passes to [then] and [catch]. *)
Inductive Handler : Type :=
| NotCallable (v : jsval)
| Validate (sequence : nat) (valid_sequences : list (list (list TplItem)))
           (permutation : list Chosen)
| Report
| LogAndReturn.

Record Reaction : Type := {
  onFulfilled : option Handler;
  onRejected : option Handler
}.

Inductive Settled : Type :=
| Fulfilled (v : jsval)
| Rejected (e : jsval).

Inductive Job : Type :=
| RunReaction
| RunCode (args : list Tracked) (code : Code).

(** What happened, in order: the pattern was invoked for the scenario whose
    array is [sequence]; the scenario was validated, reading [snapshot]. *)
Inductive Event : Type :=
| EvInvoke (sequence : nat)
| EvValidate (sequence : nat) (permutation snapshot : list Chosen)
             (verdict : completion bool).

(** [chain] holds the reactions of the promises derived from [outcome] that
    have not run yet, oldest first, and [settled] how the newest promise
    whose reaction has run was settled; the promise that [outcome] holds is
    settled when [chain] is empty.  [failures] is the array of the
    invocation in progress: a state follows one invocation of
    [test_correctness] at a time.  [trace] is not a variable of the program;
    it records what was done, in order.

    [jobs] holds the jobs that wait, in the order in which they were
    queued.  The program does not fix the order in which they run: the
    harness chains on the promises of the [promise] library, the pattern
    may defer its calls in the same way, with the promises of the engine or
    with a timer, and the caller decides in which situation
    [test_correctness] is called.  [schedule] is not a variable of the
    program either: it holds the choices of the run time, the index in
    [jobs] of the job that runs next, for as long as the run time departs
    from the order of arrival.  A statement about every state is a
    statement about every such order. *)
Record State : Type := {
  world : World;
  heap : list (list Chosen);
  jobs : list Job;
  chain : list Reaction;
  settled : Settled;
  failures : list string;
  console : list jsval;
  trace : list Event;
  schedule : list nat
}.

Definition boot (w : World) : State :=
  {| world := w; heap := []; jobs := []; chain := [];
     settled := Fulfilled VUndefined; failures := []; console := []; trace := [];
     schedule := [] |}.

Definition set_world (w : World) (st : State) : State :=
  {| world := w; heap := heap st; jobs := jobs st; chain := chain st;
     settled := settled st; failures := failures st; console := console st;
     trace := trace st; schedule := schedule st |}.
Definition set_heap (h : list (list Chosen)) (st : State) : State :=
  {| world := world st; heap := h; jobs := jobs st; chain := chain st;
     settled := settled st; failures := failures st; console := console st;
     trace := trace st; schedule := schedule st |}.
Definition set_jobs (q : list Job) (st : State) : State :=
  {| world := world st; heap := heap st; jobs := q; chain := chain st;
     settled := settled st; failures := failures st; console := console st;
     trace := trace st; schedule := schedule st |}.
Definition set_chain (c : list Reaction) (st : State) : State :=
  {| world := world st; heap := heap st; jobs := jobs st; chain := c;
     settled := settled st; failures := failures st; console := console st;
     trace := trace st; schedule := schedule st |}.
Definition set_settled (s : Settled) (st : State) : State :=
  {| world := world st; heap := heap st; jobs := jobs st; chain := chain st;
     settled := s; failures := failures st; console := console st;
     trace := trace st; schedule := schedule st |}.
Definition set_failures (f : list string) (st : State) : State :=
  {| world := world st; heap := heap st; jobs := jobs st; chain := chain st;
     settled := settled st; failures := f; console := console st;
     trace := trace st; schedule := schedule st |}.
Definition set_console (c : list jsval) (st : State) : State :=
  {| world := world st; heap := heap st; jobs := jobs st; chain := chain st;
     settled := settled st; failures := failures st; console := c;
     trace := trace st; schedule := schedule st |}.
Definition set_trace (t : list Event) (st : State) : State :=
  {| world := world st; heap := heap st; jobs := jobs st; chain := chain st;
     settled := settled st; failures := failures st; console := console st;
     trace := t; schedule := schedule st |}.
Definition set_schedule (choices : list nat) (st : State) : State :=
  {| world := world st; heap := heap st; jobs := jobs st; chain := chain st;
     settled := settled st; failures := failures st; console := console st;
     trace := trace st; schedule := choices |}.

(** [let sequence = []]. *)
Definition alloc (st : State) : nat * State :=
  (length (heap st), set_heap (heap st ++ [[]]) st).

(** [sequence.push(x)] and a read of the whole array. *)
Definition push (sequence : nat) (x : Chosen) (st : State) : State :=
  set_heap (alter (fun s => s ++ [x]) sequence (heap st)) st.
Definition read (sequence : nat) (st : State) : list Chosen :=
  default [] (heap st !! sequence).

Definition enqueue (j : Job) (st : State) : State := set_jobs (jobs st ++ [j]) st.
Definition log (e : Event) (st : State) : State := set_trace (trace st ++ [e]) st.

(** *** The instrumented callables *)

Definition invoke (t : Tracked) (st : State) : completion jsval * State :=
  let st := push (sequence_ref t) (tracked_action t) st in
  let '(produced, w) := fn_call (outcome (tracked_action t)) (world st) in
  (produced, set_world w st).

(** [args[i]()] inside the pattern; calling a missing argument throws. *)
Definition call_argument (args : list Tracked) (i : nat) (st : State)
    : completion jsval * State :=
  match args !! i with
  | Some t => invoke t st
  | None => (Threw type_error, st)
  end.

(** One synchronous run of pattern code, up to its [return] or [throw]. *)
Fixpoint exec (args : list Tracked) (code : Code) (st : State)
    : completion jsval * State :=
  match code with
  | Return v => (Returned v, st)
  | Throw e => (Threw e, st)
  | Call i k =>
      let '(produced, st) := call_argument args i st in
      exec args (k produced) st
  | Later deferred k => exec args k (enqueue (RunCode args deferred) st)
  | Own update k => exec args (k (world st)) (set_world (update (world st)) st)
  end.

(** *** Promises *)

(** The promise built by [wait_for]: fulfilled whichever way [result]
    settles.  The jobs that settle it touch nothing but that promise and
    are left out of the queue. *)
Definition wait_for (result : jsval) : jsval :=
  match result with
  | VFulfilled v => VFulfilled v
  | VRejected e => VFulfilled e
  | v => VFulfilled v
  end.

(** Registration of a reaction on the promise that [outcome] holds; its job
    is queued at once when that promise is already settled. *)
Definition register (r : Reaction) (st : State) : State :=
  let st := match chain st with [] => enqueue RunReaction st | _ => st end in
  set_chain (chain st ++ [r]) st.

(** The reactions of [p.then(h)] and of [p.catch(h)]. *)
Definition thenR (h : Handler) : Reaction :=
  {| onFulfilled := Some h; onRejected := None |}.
Definition catchR (h : Handler) : Reaction :=
  {| onFulfilled := None; onRejected := Some h |}.

Definition promise_then (h : Handler) (st : State) : State := register (thenR h) st.
Definition promise_catch (h : Handler) (st : State) : State := register (catchR h) st.

(** A handler that is not a function is ignored. *)
Definition callable (h : option Handler) : option Handler :=
  match h with
  | Some (NotCallable _) => None
  | _ => h
  end.

(** Resolution of a promise with the value its handler returned. *)
Definition resolve (x : jsval) : Settled :=
  match x with
  | VFulfilled v => Fulfilled v
  | VRejected e => Rejected e
  | _ => Fulfilled x
  end.

Definition report (failures : list string) : jsval :=
  if Nat.ltb 0 (length failures) then VReport false (Some (join LF failures))
  else VReport true None.

(** The bodies of the callbacks of [test_correctness]. *)
Definition run_handler (h : Handler) (arg : jsval) (st : State)
    : completion jsval * State :=
  match h with
  | NotCallable _ => (Returned VUndefined, st)
  | Validate sequence valid_sequences permutation =>
      let snapshot := read sequence st in
      let verdict := is_valid_sequence snapshot valid_sequences in
      let st := log (EvValidate sequence permutation snapshot verdict) st in
      match verdict with
      | Threw e => (Threw e, st)
      | Returned true => (Returned VUndefined, st)
      | Returned false =>
          (Returned VUndefined,
           set_failures (failures st ++ [failure_message permutation snapshot]) st)
      end
  | Report => (Returned (report (failures st)), st)
  | LogAndReturn => (Returned arg, set_console (console st ++ [arg]) st)
  end.

Definition settle (r : completion jsval * State) : Settled * State :=
  match r with
  | (Returned x, st) => (resolve x, st)
  | (Threw e, st) => (Rejected e, st)
  end.

(** The job of a reaction, given how the promise it hangs on was settled. *)
Definition react (r : Reaction) (s : Settled) (st : State) : Settled * State :=
  match s with
  | Fulfilled v =>
      match callable (onFulfilled r) with
      | Some h => settle (run_handler h v st)
      | None => (Fulfilled v, st)
      end
  | Rejected e =>
      match callable (onRejected r) with
      | Some h => settle (run_handler h e st)
      | None => (Rejected e, st)
      end
  end.

(** *** The job queue *)

(** What a job does once it is taken from the queue. *)
Definition run_job (job : Job) (st : State) : State :=
  match job with
  | RunCode args code => snd (exec args code st)
  | RunReaction =>
      match chain st with
      | [] => st
      | r :: pending =>
          let '(s, st) := react r (settled st) st in
          let st := set_settled s (set_chain pending st) in
          match pending with
          | [] => st
          | _ => enqueue RunReaction st
          end
      end
  end.

(** The index in [jobs] of the job that runs next: the one that the run
    time chooses, the oldest one when it has no say. *)
Definition next (st : State) : nat :=
  match schedule st with
  | choice :: _ => if Nat.ltb choice (length (jobs st)) then choice else 0
  | [] => 0
  end.

(** One job.  The job that runs is taken out of the queue, and the choice
    that the run time made is used up. *)
Definition taken (st : State) : State :=
  set_schedule (tail (schedule st)) (set_jobs (delete (next st) (jobs st)) st).

Definition step (st : State) : State :=
  match jobs st !! next st with
  | None => st
  | Some job => run_job job (taken st)
  end.

Fixpoint run (fuel : nat) (st : State) : State :=
  match fuel with
  | O => st
  | S fuel => run fuel (step st)
  end.

(** ** The engine *)

(** [permutation.map((action) => () => { ... })]: the arguments built for
    one scenario. *)
Definition tracked (sequence : nat) (permutation : list Chosen) : list Tracked :=
  map (fun action => {| sequence_ref := sequence; tracked_action := action |})
      permutation.

(** The callback that [test_correctness] gives to [all_permutations]. *)
Definition scenario (valid_sequences : list (list (list TplItem)))
    (pattern_to_test : Code) (permutation : list Chosen) (st : State) : State :=
  let '(sequence, st) := alloc st in
  let args := tracked sequence permutation in
  let st := log (EvInvoke sequence) st in
  let '(completed, st) := exec args pattern_to_test st in
  let result := match completed with Returned v => v | Threw _ => VNull end in
  let st := promise_then (NotCallable (wait_for result)) st in
  promise_then (Validate sequence valid_sequences permutation) st.

(** The synchronous part of [test_correctness], from [let outcome =
    Promise.resolve()] and [let failures = []] on; the promise it returns is
    the one [outcome] holds at the end. *)
Definition test_correctness (actions : list Action)
    (valid_sequences : list (list (list TplItem))) (pattern_to_test : Code)
    (st : State) : State :=
  let st := set_settled (Fulfilled VUndefined) (set_chain [] st) in
  let st := set_failures [] st in
  let st := all_permutations actions (scenario valid_sequences pattern_to_test) st in
  let st := promise_then Report st in
  promise_catch LogAndReturn st.

(** The settlement of the returned promise, once it has one. *)
Definition resolution (st : State) : option Settled :=
  match chain st with
  | [] => Some (settled st)
  | _ => None
  end.

(** ** Reading a run *)

(** The variables of the invocation in progress, with the console and the
    trace: what pattern code cannot touch. *)
Definition harness (st : State)
    : list Reaction * Settled * list string * list jsval * list Event :=
  (chain st, settled st, failures st, console st, trace st).

Definition is_code (j : Job) : Prop :=
  match j with
  | RunCode _ _ => True
  | RunReaction => False
  end.

(** The events logged since the state [st]. *)
Definition since (st s : State) : list Event := drop (length (trace st)) (trace s).

Definition invocations (k0 n : nat) : list Event := EvInvoke <$> seq k0 n.

(** The messages pushed to [failures] by the validations of a trace. *)
Definition failures_of (events : list Event) : list string :=
  events ≫= fun ev =>
    match ev with
    | EvValidate _ permutation snapshot (Returned false) =>
        [failure_message permutation snapshot]
    | _ => []
    end.

(** The permutations validated in a trace, in order. *)
Definition validated_of (events : list Event) : list (list Chosen) :=
  events ≫= fun ev =>
    match ev with
    | EvValidate _ permutation _ _ => [permutation]
    | EvInvoke _ => []
    end.

(** The exceptions thrown by the validations of a trace. *)
Definition faults_of (events : list Event) : list jsval :=
  events ≫= fun ev =>
    match ev with
    | EvValidate _ _ _ (Threw e) => [e]
    | _ => []
    end.

(** Every validation of a trace logged the verdict of [is_valid_sequence] on
    the sequence it read. *)
Definition judged_by (valid_sequences : list (list (list TplItem)))
    (events : list Event) : Prop :=
  Forall (fun ev =>
    match ev with
    | EvValidate _ _ snapshot verdict =>
        verdict = is_valid_sequence snapshot valid_sequences
    | EvInvoke _ => True
    end) events.

(** Events without their payload: which scenario was invoked or validated. *)
Inductive Mark : Type :=
| Invoked (sequence : nat)
| Validated (sequence : nat).

Definition mark (ev : Event) : Mark :=
  match ev with
  | EvInvoke k => Invoked k
  | EvValidate k _ _ _ => Validated k
  end.

(** Scenario [k] is complete, that is validated, before the pattern is
    invoked for scenario [k + 1]. *)
Definition one_after_another (marks : list Mark) : Prop :=
  forall k i j,
    marks !! i = Some (Invoked (S k)) -> marks !! j = Some (Validated k) -> j < i.

(** The pattern's code with [return null] in place of every [throw] of its
    synchronous part. *)
Fixpoint returning_null (code : Code) : Code :=
  match code with
  | Return v => Return v
  | Throw _ => Return VNull
  | Call i k => Call i (fun produced => returning_null (k produced))
  | Later deferred k => Later deferred (returning_null k)
  | Own update k => Own update (fun w => returning_null (k w))
  end.

(** The state in which the callback of [all_permutations] is called for
    the scenario number [j]: the scenarios before it have been through
    their synchronous part. *)
Definition arrival (actions : list Action)
    (valid_sequences : list (list (list TplItem))) (pattern_to_test : Code)
    (j : nat) (st : State) : State :=
  foldl (fun s permutation => scenario valid_sequences pattern_to_test permutation s)
        (set_failures [] (set_settled (Fulfilled VUndefined) (set_chain [] st)))
        (take j (visited actions)).

(** *** The invariant of the promise chain *)

Definition tail_chain : list Reaction := [thenR Report; catchR LogAndReturn].

(** The reactions that the scenarios from address [k] on leave on the chain. *)
Inductive pending (V : list (list (list TplItem)))
    : nat -> list (list Chosen) -> list Reaction -> Prop :=
| pending_nil k : pending V k [] []
| pending_scenario k permutation todo v rs :
    pending V (S k) todo rs ->
    pending V k (permutation :: todo)
      (thenR (NotCallable v) :: thenR (Validate k V permutation) :: rs).

(** The events of the validations that returned, for the scenarios from
    address [k0] on. *)
Inductive validated (V : list (list (list TplItem))) (k0 : nat)
    : list (list Chosen) -> list Event -> Prop :=
| validated_nil : validated V k0 [] []
| validated_snoc done events permutation snapshot verdict :
    validated V k0 done events ->
    is_valid_sequence snapshot V = Returned verdict ->
    validated V k0 (done ++ [permutation])
      (events ++ [EvValidate (k0 + length done) permutation snapshot (Returned verdict)]).

(** What holds of the harness's variables between two jobs, for the run
    over the permutations [perms] whose sequences start at address [k0],
    begun with the trace [T0] and the console [C0]: the chain still holds
    the reactions of the scenarios not yet validated, and the trace and
    [failures] account for the ones that are. *)
Inductive invariant (V : list (list (list TplItem))) (k0 : nat)
    (perms : list (list Chosen)) (T0 : list Event) (C0 : list jsval)
    : list Reaction * Settled * list string * list jsval * list Event -> Prop :=
| inv_waiting done todo rs events :
    perms = done ++ todo ->
    pending V (k0 + length done) todo rs ->
    validated V k0 done events ->
    invariant V k0 perms T0 C0
      (rs ++ tail_chain, Fulfilled VUndefined, failures_of events, C0, T0 ++ events)
| inv_validating done permutation todo rs events :
    perms = done ++ permutation :: todo ->
    pending V (S (k0 + length done)) todo rs ->
    validated V k0 done events ->
    invariant V k0 perms T0 C0
      (thenR (Validate (k0 + length done) V permutation) :: rs ++ tail_chain,
       Fulfilled VUndefined, failures_of events, C0, T0 ++ events)
| inv_faulted done permutation todo rs events snapshot e :
    perms = done ++ permutation :: todo ->
    Forall (fun r => onRejected r = None) rs ->
    validated V k0 done events ->
    is_valid_sequence snapshot V = Threw e ->
    invariant V k0 perms T0 C0
      (rs ++ [catchR LogAndReturn], Rejected e, failures_of events, C0,
       T0 ++ events ++ [EvValidate (k0 + length done) permutation snapshot (Threw e)])
| inv_reported c events :
    c = [catchR LogAndReturn] \/ c = [] ->
    validated V k0 perms events ->
    invariant V k0 perms T0 C0
      (c, Fulfilled (report (failures_of events)), failures_of events, C0, T0 ++ events)
| inv_fault_returned done permutation todo events snapshot e :
    perms = done ++ permutation :: todo ->
    validated V k0 done events ->
    is_valid_sequence snapshot V = Threw e ->
    invariant V k0 perms T0 C0
      ([], Fulfilled e, failures_of events, C0 ++ [e],
       T0 ++ events ++ [EvValidate (k0 + length done) permutation snapshot (Threw e)]).

(** *** Two runs side by side *)


(** A job left by earlier activity: pattern code whose callables record into
    arrays allocated before address [b]. *)
Definition foreign (b : nat) (j : Job) : Prop :=
  match j with
  | RunCode args _ => Forall (fun t => sequence_ref t < b) args
  | RunReaction => False
  end.






(** No job of the queue writes to an array from the address [k0] on: the
    code that waits calls callables of earlier runs only. *)
Definition below (k0 : nat) (j : Job) : Prop :=
  match j with
  | RunCode args _ => Forall (fun t => sequence_ref t < k0) args
  | RunReaction => True
  end.
Definition outside (k0 : nat) (st : State) : Prop := Forall (below k0) (jobs st).

(** ** The report, as the specification words it *)

Module Spec.

(** The strings [parts] with [separator] between one and the next. *)
Fixpoint separated (separator : string) (parts : list string) : string :=
  match parts with
  | [] => EmptyString
  | [part] => part
  | part :: rest => part +:+ separator +:+ separated separator rest
  end.

Definition newline : string := String (Ascii.ascii_of_nat 10) EmptyString.

(** A failure entry: the outcome chosen for each action, one per line, and
    the names of the actions in the order of the calls, with commas. *)
Definition entry (permutation sequence : list Chosen) : string :=
  "Pattern failed validation" +:+ newline +:+
  "  Scenario: " +:+
  separated (newline +:+ "            ")
    (map (fun chosen => name chosen +:+ " -> " +:+ fn_name (outcome chosen)) permutation)
  +:+ newline +:+
  "  Sequence: " +:+ separated ", " (map name sequence).

(** The entries of the scenarios judged invalid, in the order of the
    validations. *)
Definition entries (events : list Event) : list string :=
  events ≫= fun ev =>
    match ev with
    | EvValidate _ permutation snapshot (Returned false) => [entry permutation snapshot]
    | _ => []
    end.

End Spec.

(** ** Examples *)

Module Examples.

Definition returns (id : nat) (n : string) (v : jsval) : Outcome :=
  {| oid := id; fn_name := n; fn_call := fun w => (Returned v, w) |}.
Definition throws (id : nat) (n : string) (e : jsval) : Outcome :=
  {| oid := id; fn_name := n; fn_call := fun w => (Threw e, w) |}.

Definition ok : Outcome := returns 1 "ok" (VNum 1).
Definition fail : Outcome := throws 2 "fail" (VError "failed").
Definition ok' : Outcome := returns 3 "ok" (VNum 1).

(** An outcome producer that succeeds the first time it is called and
    throws from then on: it keeps a flag in the caller's variables. *)
Definition once : Outcome :=
  {| oid := 4; fn_name := "once";
     fn_call := fun w =>
       match w !! "called" with
       | Some _ => (Threw (VError "called twice"), w)
       | None => (Returned VUndefined, <["called" := VNum 1]> w)
       end |}.

Definition A : Action := action "A" [ok; fail].
Definition B : Action := action "B" [ok'].
Definition Z : Action := action "Z" [].
Definition O : Action := action "O" [once].
Definition C : Action := action "C" [ok].

Definition pick (a : Action) (o : Outcome) : Chosen :=
  {| name := action_name a; outcome := o |}.

(** [(a, b) => { a(); b(); }]: [b] is reached only when [a] did not throw. *)
Definition a_then_b : Code :=
  Call 0 (fun r =>
    match r with
    | Threw e => Throw e
    | Returned _ => Call 1 (fun r' =>
        match r' with Threw e => Throw e | Returned _ => Return VUndefined end)
    end).

(** [(a, b) => a().then(b)] for promise-returning actions: the call of [b]
    is left for a later job. *)
Definition a_then_later_b : Code :=
  Call 0 (fun r =>
    match r with
    | Threw e => Throw e
    | Returned _ => Later (Call 1 (fun _ => Return VUndefined))
                          (Return (VFulfilled VUndefined))
    end).

(** [(c, b) => c().then(...).then(...).then(b)]: the call of [b] comes
    three jobs after the pattern has returned its promise. *)
Definition c_then_much_later_b : Code :=
  Call 0 (fun _ =>
    Later (Later (Later (Call 1 (fun _ => Return VUndefined))
                        (Return VUndefined))
                 (Return VUndefined))
          (Return (VFulfilled VUndefined))).

(** [(a) => a()]. *)
Definition only_a : Code :=
  Call 0 (fun r => match r with Threw e => Throw e | Returned v => Return v end).

(** The templates [[[A, ok], [B]]], [[[A, fail]]], [[[O], [B]]] and
    [[[C], [B]]]. *)
Definition a_ok_then_b : list Constraint :=
  [ {| constrained := A; allowed := [ok] |}; {| constrained := B; allowed := [] |} ].
Definition a_fail : list Constraint := [ {| constrained := A; allowed := [fail] |} ].
Definition o_then_b : list Constraint :=
  [ {| constrained := O; allowed := [] |}; {| constrained := B; allowed := [] |} ].
Definition c_then_b : list Constraint :=
  [ {| constrained := C; allowed := [] |}; {| constrained := B; allowed := [] |} ].

(** A template whose only entry is an empty array. *)
Definition empty_entry : list (list TplItem) := [[]].


End Examples.

(** ** Further notions *)

(** *** For the generator and the validator *)

(** The identities of the outcomes chosen by a permutation. *)
Definition choices (p : list Chosen) : list nat := map (fun c => oid (outcome c)) p.

(** The record [r] passes the two tests that [sequence_fits_pattern] makes
    on the entry [valid_action], whatever the entry holds. *)
Definition position_fits (r : Chosen) (valid_action : list TplItem) : Prop :=
  exists first,
    valid_action !! 0 = Some first /\
    item_name first = Some (name r) /\
    action_fits_pattern r valid_action = true.

(** Reading [valid_action[0].name] throws: the entry is an empty array, or
    it begins with [undefined] or [null]. *)
Definition unreadable (valid_action : list TplItem) : Prop :=
  item_name (first_item valid_action) = None.

(** How [sequence_fits_pattern] ends on one template. *)
Definition fits_b (sequence : list Chosen) (valid_sequence : list (list TplItem)) : bool :=
  match sequence_fits_pattern sequence valid_sequence with
  | Returned true => true
  | _ => false
  end.
Definition throws_b (sequence : list Chosen) (valid_sequence : list (list TplItem)) : bool :=
  match sequence_fits_pattern sequence valid_sequence with
  | Threw _ => true
  | Returned _ => false
  end.

(** *** For the run time *)

(** Pattern code that leaves nothing for a later job. *)
Inductive synchronous : Code -> Prop :=
| synchronous_return v : synchronous (Return v)
| synchronous_throw e : synchronous (Throw e)
| synchronous_call i k :
    (forall produced, synchronous (k produced)) -> synchronous (Call i k)
| synchronous_own update k :
    (forall w, synchronous (k w)) -> synchronous (Own update k).

(** Only reaction jobs are waiting. *)
Definition quiet (st : State) : Prop := Forall (fun j => j = RunReaction) (jobs st).

(** [code] put off by [n] jobs, as behind [n] calls of [then]. *)
Fixpoint delayed (n : nat) (code : Code) : Code :=
  match n with
  | 0 => code
  | S n => Later (delayed n code) (Return VUndefined)
  end.

(** [(c, b) => { c(); p.then(...) ... .then(b) }], the call of [b] behind
    [n] calls of [then]. *)
Definition c_then_b_after (n : nat) : Code :=
  Call 0 (fun _ => delayed n (Call 1 (fun _ => Return VUndefined))).

(** The records that the array at address [k] may hold and the callables
    that a job may call, for a property [P] of addresses and records. *)
Definition owned_args (P : nat -> Chosen -> Prop) (args : list Tracked) : Prop :=
  Forall (fun t => P (sequence_ref t) (tracked_action t)) args.
Definition owned_job (P : nat -> Chosen -> Prop) (j : Job) : Prop :=
  match j with
  | RunCode args _ => owned_args P args
  | RunReaction => True
  end.
Definition owned (P : nat -> Chosen -> Prop) (st : State) : Prop :=
  (forall k r, r ∈ read k st -> P k r) /\ Forall (owned_job P) (jobs st).

(** The record [r] may be in the array at address [k]: the array is older
    than the run, or [r] is of the permutation of its scenario. *)
Definition belongs (k0 : nat) (perms : list (list Chosen)) (k : nat) (r : Chosen) : Prop :=
  k < k0 \/ exists permutation, perms !! (k - k0) = Some permutation /\ r ∈ permutation.



(** Pattern code at its [return] or [throw]. *)
Definition ends (code : Code) : Prop :=
  match code with
  | Return _ | Throw _ => True
  | _ => False
  end.

(** Two patterns that make the same calls and leave the same code for
    later, and differ at most in what they return or throw at the end. *)
Inductive same_calls : Code -> Code -> Prop :=
| same_calls_end code code' : ends code -> ends code' -> same_calls code code'
| same_calls_call i k k' :
    (forall produced, same_calls (k produced) (k' produced)) ->
    same_calls (Call i k) (Call i k')
| same_calls_later deferred deferred' k k' :
    same_calls deferred deferred' -> same_calls k k' ->
    same_calls (Later deferred k) (Later deferred' k')
| same_calls_own update k k' :
    (forall w, same_calls (k w) (k' w)) ->
    same_calls (Own update k) (Own update k').

Inductive alike_job : Job -> Job -> Prop :=
| alike_job_reaction : alike_job RunReaction RunReaction
| alike_job_code args code code' :
    same_calls code code' -> alike_job (RunCode args code) (RunCode args code').

(** Two reactions with the same handlers, what is not a function apart. *)
Definition alike_reaction (r r' : Reaction) : Prop :=
  callable (onFulfilled r) = callable (onFulfilled r') /\
  callable (onRejected r) = callable (onRejected r').

(** Two states that differ at most in the values that [then] ignores and in
    what the waiting pattern code will return. *)
Definition alike (st st' : State) : Prop :=
  world st = world st' /\ heap st = heap st' /\
  Forall2 alike_job (jobs st) (jobs st') /\
  Forall2 alike_reaction (chain st) (chain st') /\
  settled st = settled st' /\ failures st = failures st' /\
  console st = console st' /\ trace st = trace st' /\
  schedule st = schedule st'.

(** The calls of [a_then_later_b] with other results: [null] when [a]
    throws, a rejected promise otherwise, and an exception after the later
    call of [b]. *)
Definition a_then_later_b_rejected : Code :=
  Call 0 (fun r =>
    match r with
    | Threw e => Return VNull
    | Returned _ => Later (Call 1 (fun _ => Throw (VError "late")))
                          (Return (VRejected (VError "rejected")))
    end).

(** * Proofs *)

(** ** The permutation generator *)

Section Generator.

Lemma foldl_bind {A B S : Type} (f : S -> B -> S) (g : A -> list B) (l : list A) (s : S) :
  foldl f s (l ≫= g) = foldl (fun s a => foldl f s (g a)) s l.
Proof.
  revert s; induction l as [|a l IH]; intros s; [done|].
  rewrite bind_cons, foldl_app. apply IH.
Qed.

Lemma foldl_pointwise {A S : Type} (f g : S -> A -> S) (l : list A) (s : S) :
  (forall s a, f s a = g s a) -> foldl f s l = foldl g s l.
Proof.
  intros E; revert s; induction l as [|a l IH]; intros s; simpl; [done|].
  rewrite E. apply IH.
Qed.

Lemma all_permutations_nested {S : Type} (args : list Action)
    (callback : list Chosen -> S -> S) (s : S) :
  all_permutations args callback s = foldl (fun s p => callback p s) s (nested args).
Proof.
  revert callback s; induction args as [|a rest IH]; intros callback s; [done|].
  cbn [all_permutations nested]. unfold forEach.
  rewrite foldl_bind. apply foldl_pointwise. intros s' o.
  rewrite IH, foldl_fmap. done.
Qed.

Lemma foldl_snoc_id {A : Type} (l acc : list A) :
  foldl (fun acc x => acc ++ [x]) acc l = acc ++ l.
Proof.
  revert acc; induction l as [|x l IH]; intros acc; simpl.
  - by rewrite app_nil_r.
  - rewrite IH, <- app_assoc. done.
Qed.

Lemma visited_nested (args : list Action) : visited args = nested args.
Proof. unfold visited. rewrite all_permutations_nested. apply foldl_snoc_id. Qed.

Lemma length_bind_blocks {A B : Type} (f : A -> list B) (m : nat) (l : list A) :
  (forall a, a ∈ l -> length (f a) = m) -> length (l ≫= f) = length l * m.
Proof.
  induction l as [|a l IH]; intros H; [done|].
  rewrite bind_cons, length_app, H, IH; [simpl; lia| |left].
  intros b Hb. apply H. by right.
Qed.

Lemma length_nested (args : list Action) :
  length (nested args) = product (outcome_counts args).
Proof.
  induction args as [|a rest IH]; [done|].
  cbn [nested outcome_counts map product foldr].
  rewrite (length_bind_blocks _ (length (nested rest))).
  - rewrite IH. done.
  - intros o _. by rewrite length_fmap.
Qed.

(** In a concatenation of blocks of [m] elements, the element number [idx]
    is the element [idx mod m] of the block [idx / m]. *)
Lemma lookup_bind_blocks {A B : Type} (f : A -> list B) (m : nat) (l : list A) (idx : nat) :
  (forall a, a ∈ l -> length (f a) = m) -> 0 < m ->
  (l ≫= f) !! idx = l !! (idx / m) ≫= fun a => f a !! (idx mod m).
Proof.
  intros H Hm. revert idx H. induction l as [|a l IH]; intros idx H.
  - done.
  - rewrite bind_cons. destruct (decide (idx < m)) as [Hlt|Hge].
    + rewrite lookup_app_l by (rewrite H; [done|left]).
      rewrite Nat.div_small, Nat.mod_small by done. done.
    + rewrite lookup_app_r by (rewrite H; [lia|left]).
      rewrite H by left. rewrite IH by (intros b Hb; apply H; by right).
      assert (idx / m = S ((idx - m) / m)) as Hd.
      { replace (idx / m) with (((idx - m) + 1 * m) / m) by (f_equal; lia).
        rewrite Nat.div_add by lia. lia. }
      assert (idx mod m = (idx - m) mod m) as Hr.
      { replace (idx mod m) with (((idx - m) + 1 * m) mod m) by (f_equal; lia).
        apply Nat.Div0.mod_add. }
      rewrite Hd, Hr. done.
Qed.

Lemma lookup_nested (args : list Action) (idx : nat) :
  idx < product (outcome_counts args) -> nested args !! idx = choice args idx.
Proof.
  revert idx; induction args as [|a rest IH]; intros idx Hidx.
  - cbn in *. by replace idx with 0 by lia.
  - change (product (outcome_counts (a :: rest)))
      with (length (action_outcomes a) * product (outcome_counts rest)) in Hidx.
    cbn [nested choice].
    set (m := product (outcome_counts rest)) in *.
    assert (0 < m) as Hm by (destruct m; lia).
    rewrite (lookup_bind_blocks _ m)
      by (try done; intros o _; rewrite length_fmap; apply length_nested).
    destruct (action_outcomes a !! (idx / m)) as [o|]; simpl; [|done].
    rewrite list_lookup_fmap, IH by (apply Nat.mod_upper_bound; lia).
    by destruct (choice rest (idx mod m)).
Qed.

Lemma elem_of_nested (args : list Action) (p : list Chosen) :
  p ∈ nested args <-> Forall2 picks args p.
Proof.
  revert p; induction args as [|a rest IH]; intros p; cbn [nested].
  - rewrite list_elem_of_singleton. split; [intros ->; constructor|apply Forall2_nil_inv_l].
  - rewrite list_elem_of_bind. split.
    + intros (o & Hp & Ho). apply list_elem_of_fmap in Hp as (q & -> & Hq).
      constructor; [by split|by apply IH].
    + intros H. apply Forall2_cons_inv_l in H as (c & q & [Hn Ho] & Hq & ->).
      exists (outcome c). split; [|done]. apply list_elem_of_fmap.
      exists q. split; [|by apply IH]. destruct c; simpl in *; by subst.
Qed.

Lemma product_zero (counts : list nat) : 0 ∈ counts -> product counts = 0.
Proof.
  induction counts as [|c counts IH]; intros H; [by apply elem_of_nil in H|].
  apply elem_of_cons in H as [<-|H]; cbn; [done|].
  unfold product in IH. rewrite IH by done. lia.
Qed.

Lemma visited_no_outcome (args : list Action) :
  0 ∈ outcome_counts args -> visited args = [].
Proof.
  intros H. apply nil_length_inv. rewrite visited_nested, length_nested.
  by apply product_zero.
Qed.

End Generator.

(** C1. The generator calls back once per element of the Cartesian product
    of the outcome choices, in nested order with the last action's outcome
    varying fastest: there are [prod c_i] calls (none when some [c_i] is 0,
    one with the empty permutation when there is no action), each with a
    permutation of the length of the input that picks one outcome per
    action in the order of the input, and the call number [idx] receives
    the permutation whose choices are the mixed-radix digits of [idx]. *)
Theorem all_permutations_cartesian (args : list Action) :
  (forall (S : Type) (callback : list Chosen -> S -> S) (s : S),
     all_permutations args callback s
     = foldl (fun s permutation => callback permutation s) s (visited args)) /\
  length (visited args) = product (outcome_counts args) /\
  (0 ∈ outcome_counts args -> visited args = []) /\
  (args = [] -> visited args = [[]]) /\
  (forall p, p ∈ visited args <->
     length p = length args /\ Forall2 picks args p) /\
  (forall idx, idx < product (outcome_counts args) ->
     visited args !! idx = choice args idx).
Proof.
  split_and!.
  - intros S callback s. rewrite visited_nested. apply all_permutations_nested.
  - rewrite visited_nested. apply length_nested.
  - apply visited_no_outcome.
  - by intros ->.
  - intros p. rewrite visited_nested, elem_of_nested. split; [|by intros [_ H]].
    intros H. split; [|done]. symmetry. by eapply Forall2_length.
  - rewrite visited_nested. apply lookup_nested.
Qed.

(** ** The sequence validator *)

Section Validator.

Lemma outcome_loop_allowed (r : Chosen) (os : list Outcome) :
  outcome_loop r (map ItOutcome os) = true <->
  exists o, o ∈ os /\ oid o = oid (outcome r).
Proof.
  induction os as [|o os IH]; simpl.
  - split; [done|]. intros (o & H & _). by apply elem_of_nil in H.
  - destruct (Nat.eqb_spec (oid o) (oid (outcome r))) as [E|N].
    + split; [|done]. intros _. exists o. split; [left|done].
    + rewrite IH. split.
      * intros (o' & H & E). exists o'. split; [by right|done].
      * intros (o' & H & E). apply elem_of_cons in H as [->|H]; [done|by exists o'].
Qed.

Lemma action_fits_entry (r : Chosen) (c : Constraint) :
  action_fits_pattern r (entry c) = true <->
  length (entry c) = 1 \/ exists o, o ∈ allowed c /\ oid o = oid (outcome r).
Proof.
  unfold action_fits_pattern.
  destruct (Nat.eqb_spec (length (entry c)) 1) as [E|N].
  - split; [by left|done].
  - change (drop 1 (entry c)) with (map ItOutcome (allowed c)).
    rewrite outcome_loop_allowed. split; [by right|].
    by intros [?|?].
Qed.

Lemma fits_loop_template (s : list Chosen) (t : list Constraint) :
  length s = length t ->
  exists b, fits_loop s (template t) = Returned b /\
    (b = true <-> forall i r c, s !! i = Some r -> t !! i = Some c -> admits c r).
Proof.
  revert t; induction s as [|r s IH]; intros [|c t] Hlen; try done.
  - exists true. split; [done|]. split; [|done]. intros _ i r c H. done.
  - cbn [template map fits_loop].
    change (first_item (entry c)) with (ItAction (constrained c)).
    cbn [item_name].
    destruct (String.eqb_spec (name r) (action_name (constrained c))) as [En|Nn]; cbn [negb].
    + destruct (action_fits_pattern r (entry c)) eqn:Ef; cbn [negb].
      * destruct (IH t) as (b & Hb & Hiff); [simpl in Hlen; lia|].
        exists b. split; [done|]. rewrite Hiff. split.
        -- intros H [|i] r' c' Hr Hc; simpl in *.
           ++ simplify_eq. split; [done|]. by apply action_fits_entry.
           ++ by eapply H.
        -- intros H i r' c' Hr Hc. by apply (H (S i)).
      * exists false. split; [done|]. split; [done|]. intros H.
        destruct (H 0 r c eq_refl eq_refl) as [_ Ha].
        apply action_fits_entry in Ha. congruence.
    + exists false. split; [done|]. split; [done|]. intros H.
      by destruct (H 0 r c eq_refl eq_refl) as [? _].
Qed.

Lemma sequence_fits_template (s : list Chosen) (t : list Constraint) :
  exists b, sequence_fits_pattern s (template t) = Returned b /\
    (b = true <-> matches s t).
Proof.
  unfold sequence_fits_pattern, matches, template at 1. rewrite length_map.
  destruct (Nat.eqb_spec (length s) (length t)) as [E|N]; cbn [negb].
  - destruct (fits_loop_template s t E) as (b & Hb & Hiff).
    exists b. split; [done|]. rewrite Hiff. split; [by intros H|by intros [_ H]].
  - exists false. split; [done|]. split; [done|by intros [? _]].
Qed.

Lemma valid_loop_templates (s : list Chosen) (ts : list (list Constraint)) (flag : bool) :
  exists b, valid_loop s (map template ts) flag = Returned b /\
    (b = true <-> flag = true \/ exists t, t ∈ ts /\ matches s t).
Proof.
  revert flag; induction ts as [|t ts IH]; intros flag; cbn [map valid_loop].
  - exists flag. split; [done|]. split; [by left|]. intros [?|(t & H & _)]; [done|].
    by apply elem_of_nil in H.
  - destruct (sequence_fits_template s t) as (fits & -> & Hfits).
    destruct (IH (if fits then true else flag)) as (b & Hb & Hiff).
    exists b. split; [done|]. rewrite Hiff. split.
    + intros [Hf|(t' & Hin & Hm)].
      * destruct fits; [|by left]. right. exists t. split; [left|by apply Hfits].
      * right. exists t'. split; [by right|done].
    + intros [->|(t' & Hin & Hm)].
      * left. by destruct fits.
      * apply elem_of_cons in Hin as [->|Hin].
        -- left. apply Hfits in Hm. by rewrite Hm.
        -- right. by exists t'.
Qed.

(** The only exception of the validator. *)
Lemma validator_throws (s : list Chosen) (V : list (list (list TplItem))) (e : jsval) :
  is_valid_sequence s V = Threw e -> e = type_error.
Proof.
  unfold is_valid_sequence. generalize false. induction V as [|t ts IH]; intros flag; cbn.
  - done.
  - destruct (sequence_fits_pattern s t) as [b|e'] eqn:E.
    + apply IH.
    + intros [= <-]. unfold sequence_fits_pattern in E.
      destruct (negb _); [done|]. clear -E. revert t E.
      induction s as [|r s IHs]; intros [|c t] E; cbn in E; try done.
      destruct (item_name _); [|congruence].
      destruct (negb _); [done|]. destruct (negb _); [done|]. by eapply IHs.
Qed.

End Validator.

(** C2. For every recorded sequence and every list of templates authored as
    [[Action]] or [[Action, outcome_1, ...]] entries, validation returns a
    verdict, and the verdict is [true] exactly when some template of the
    list has the length of the sequence and admits it position by position:
    same action name, and either an entry of length 1 or an allowed outcome
    identical to the recorded one. *)
Theorem is_valid_sequence_matches (S : list Chosen) (Ts : list (list Constraint)) :
  exists verdict,
    is_valid_sequence S (map template Ts) = Returned verdict /\
    (verdict = true <->
     exists T, T ∈ Ts /\ length S = length T /\
       forall i r c, S !! i = Some r -> T !! i = Some c ->
         name r = action_name (constrained c) /\
         (length (entry c) = 1 \/
          exists o, o ∈ allowed c /\ oid o = oid (outcome r))).
Proof.
  destruct (valid_loop_templates S Ts false) as (b & Hb & Hiff).
  exists b. split; [done|]. rewrite Hiff. unfold matches, admits. split.
  - intros [?|H]; [done|exact H].
  - intros H. right. exact H.
Qed.

(** ** What a job may touch *)

Section Frame.

Lemma harness_eq (st st' : State) :
  harness st = harness st' <->
  chain st = chain st' /\ settled st = settled st' /\ failures st = failures st' /\
  console st = console st' /\ trace st = trace st'.
Proof. unfold harness. split; [intros [=]; auto|intros (->&->&->&->&->); done]. Qed.

Lemma prefix_alter_snoc {A} (l : list (list A)) k x j :
  default [] (l !! j) `prefix_of` default [] (alter (fun s => s ++ [x]) k l !! j).
Proof.
  destruct (decide (k = j)) as [->|N].
  - rewrite list_lookup_alter_eq. destruct (l !! j); simpl; [|done].
    by apply prefix_app_r.
  - by rewrite list_lookup_alter_ne.
Qed.

(** A tracked call touches the sequence it captured and the world. *)
Lemma invoke_frame (t : Tracked) (st : State) :
  harness (invoke t st).2 = harness st /\
  jobs (invoke t st).2 = jobs st /\
  length (heap (invoke t st).2) = length (heap st) /\
  forall k, read k st `prefix_of` read k (invoke t st).2.
Proof.
  unfold invoke. destruct (fn_call _ _) as [c w] eqn:E. cbn.
  repeat split.
  - apply length_alter.
  - intros k. unfold read; cbn. apply prefix_alter_snoc.
Qed.

Lemma call_argument_frame (args : list Tracked) (i : nat) (st : State) :
  harness (call_argument args i st).2 = harness st /\
  jobs (call_argument args i st).2 = jobs st /\
  length (heap (call_argument args i st).2) = length (heap st) /\
  forall k, read k st `prefix_of` read k (call_argument args i st).2.
Proof.
  unfold call_argument. destruct (args !! i); [apply invoke_frame|done].
Qed.

(** Pattern code leaves the harness's variables alone, only adds code jobs
    to the queue, and only appends to the arrays of the heap. *)
Lemma exec_frame (code : Code) (args : list Tracked) (st : State) :
  harness (exec args code st).2 = harness st /\
  (exists new, jobs (exec args code st).2 = jobs st ++ new /\ Forall is_code new) /\
  length (heap (exec args code st).2) = length (heap st) /\
  forall k, read k st `prefix_of` read k (exec args code st).2.
Proof.
  revert st; induction code as [v|e|i k IH|deferred _ k IH|update k IH]; intros st; cbn [exec].
  - repeat split; try done. exists []. by rewrite app_nil_r.
  - repeat split; try done. exists []. by rewrite app_nil_r.
  - destruct (call_argument args i st) as [c st1] eqn:E.
    destruct (call_argument_frame args i st) as (H1 & H2 & H3 & H4).
    rewrite E in *. cbn [snd] in *.
    destruct (IH c st1) as (I1 & (new & I2 & I2') & I3 & I4).
    repeat split; try congruence.
    + exists new. split; [congruence|done].
    + intros j. etrans; [apply H4|apply I4].
  - destruct (IH (enqueue (RunCode args deferred) st)) as (I1 & (new & I2 & I2') & I3 & I4).
    repeat split; try done.
    exists (RunCode args deferred :: new). split; [|by constructor].
    rewrite I2. cbn. by rewrite <- app_assoc.
  - exact (IH (world st) (set_world (update (world st)) st)).
Qed.

(** Neither does it touch the choices of the run time. *)
Lemma exec_schedule (code : Code) (args : list Tracked) (st : State) :
  schedule (exec args code st).2 = schedule st.
Proof.
  revert st; induction code as [v|e|i k IH|deferred _ k IH|update k IH]; intros st; cbn [exec].
  - done.
  - done.
  - assert (schedule (call_argument args i st).2 = schedule st) as H.
    { unfold call_argument. destruct (args !! i) as [t|]; [|done].
      unfold invoke. by destruct (fn_call _ _). }
    destruct (call_argument args i st) as [c st1]. by rewrite IH.
  - by rewrite IH.
  - by rewrite IH.
Qed.

Lemma run_add (a b : nat) (st : State) : run (a + b) st = run b (run a st).
Proof. revert st; induction a as [|a IH]; intros st; [done|]. cbn. apply IH. Qed.

Lemma delete_app_l {A} (l k : list A) (i : nat) :
  i < length l -> delete i (l ++ k) = delete i l ++ k.
Proof.
  revert i; induction l as [|x l IH]; intros [|i] Hi; cbn in *; try lia; try done.
  by rewrite IH by lia.
Qed.

Lemma delete_app_r {A} (l k : list A) (x : A) (i : nat) :
  length l < i -> delete i (l ++ x :: k) = l ++ x :: delete (i - length l - 1) k.
Proof.
  revert i; induction l as [|y l IH]; intros [|i] Hi; cbn in *; try lia.
  - by rewrite Nat.sub_0_r.
  - by rewrite IH by lia.
Qed.

(** A job runs as long as one waits. *)
Lemma next_lt (st : State) : jobs st <> [] -> next st < length (jobs st).
Proof.
  intros H. assert (0 < length (jobs st)) by (destruct (jobs st); [done|cbn; lia]).
  unfold next. destruct (schedule st) as [|choice choices]; [done|].
  by destruct (Nat.ltb_spec choice (length (jobs st))).
Qed.

Lemma next_job (st : State) :
  jobs st <> [] -> exists job, jobs st !! next st = Some job.
Proof. intros H. apply lookup_lt_is_Some_2. by apply next_lt. Qed.

Lemma step_idle (st : State) : jobs st = [] -> step st = st.
Proof. intros Hj. unfold step. by rewrite Hj. Qed.

Lemma step_code (args : list Tracked) (code : Code) (st : State) :
  jobs st !! next st = Some (RunCode args code) ->
  harness (step st) = harness st /\
  (exists new, jobs (step st) = delete (next st) (jobs st) ++ new /\ Forall is_code new) /\
  length (heap (step st)) = length (heap st) /\
  forall k, read k st `prefix_of` read k (step st).
Proof.
  intros Hj. unfold step. rewrite Hj.
  destruct (exec_frame code args (taken st)) as (H1 & H2 & H3 & H4).
  done.
Qed.

Lemma step_code_schedule (args : list Tracked) (code : Code) (st : State) :
  jobs st !! next st = Some (RunCode args code) ->
  schedule (step st) = tail (schedule st).
Proof. intros Hj. unfold step. rewrite Hj. cbn [run_job]. by rewrite exec_schedule. Qed.

(** Once the returned promise is settled, nothing changes it. *)
Lemma step_settled (st : State) : chain st = [] -> harness (step st) = harness st.
Proof.
  intros Hc. destruct (jobs st !! next st) as [[|args code]|] eqn:Hj.
  - unfold step. rewrite Hj. cbn. by rewrite Hc.
  - by destruct (step_code args code st Hj) as [? _].
  - unfold step. by rewrite Hj.
Qed.

Lemma run_settled (n : nat) (st : State) :
  chain st = [] -> harness (run n st) = harness st.
Proof.
  revert st; induction n as [|n IH]; intros st Hc; [done|]. cbn.
  pose proof (step_settled st Hc) as Hs. rewrite IH; [done|].
  apply harness_eq in Hs as (-> & _). done.
Qed.

(** The job of a reaction consumes the oldest reaction of the chain and
    queues the job of the next one. *)
Lemma step_reaction (r : Reaction) (pending : list Reaction) (st : State) :
  jobs st !! next st = Some RunReaction -> chain st = r :: pending ->
  chain (step st) = pending /\
  (pending <> [] -> RunReaction ∈ jobs (step st)).
Proof.
  intros Hj Hc. unfold step. rewrite Hj. cbn. rewrite Hc.
  destruct (react r _ _) as [s st1] eqn:E.
  destruct pending as [|r' pending]; cbn; [done|].
  split; [done|]. intros _. unfold enqueue; cbn. apply elem_of_app. right. left.
Qed.

(** Whatever the run time chooses, the job of the reaction comes: a choice
    is used up with every job, and in the order of arrival the jobs before
    it are finitely many. *)
Lemma reaction_comes (st : State) :
  chain st <> [] -> RunReaction ∈ jobs st ->
  exists n, length (chain (run n st)) < length (chain st) /\
    (chain (run n st) <> [] -> RunReaction ∈ jobs (run n st)).
Proof.
  intros Hc Hin. apply list_elem_of_split in Hin as (before & after & Hj).
  remember (length (schedule st) + length before) as m eqn:Hm.
  revert st before after Hc Hj Hm. induction (lt_wf m) as [m _ IH].
  intros st before after Hc Hj Hm.
  destruct (next_job st) as [job Hnext]; [by rewrite Hj; destruct before|].
  destruct (chain st) as [|r pending] eqn:E; [congruence|].
  destruct job as [|args code].
  - destruct (step_reaction r pending st Hnext E) as [H1 H2].
    exists 1. cbn. rewrite H1. split; [lia|done].
  - destruct (step_code args code st Hnext) as (H1 & (new & H2 & _) & _).
    apply harness_eq in H1 as (H1 & _).
    pose proof (step_code_schedule args code st Hnext) as Hs.
    assert (next st <> length before) as Hne.
    { intros Heq. rewrite Heq, Hj in Hnext.
      rewrite (list_lookup_middle before after RunReaction (length before) eq_refl) in Hnext.
      discriminate Hnext. }
    assert (exists before' after',
               jobs (step st) = before' ++ RunReaction :: after' /\
               length (schedule (step st)) + length before' < m) as (b' & a' & Hj' & Hlt).
    { rewrite H2, Hs, Hj. destruct (decide (next st < length before)) as [Hlt|Hge].
      - exists (delete (next st) before), (after ++ new).
        rewrite delete_app_l, <- app_assoc by done. split; [done|].
        rewrite length_delete; [|apply lookup_lt_is_Some_2; exact Hlt].
        destruct (schedule st); cbn in *; lia.
      - exists before, (delete (next st - length before - 1) after ++ new).
        rewrite delete_app_r, <- app_assoc by lia. split; [done|].
        assert (next st <> 0) as Hn0 by lia. unfold next in Hn0.
        destruct (schedule st); [done|]. cbn in *. lia. }
    destruct (IH _ Hlt (step st) b' a') as (n & Hn1 & Hn2); [by rewrite H1, E|done|done|].
    exists (S n). cbn. rewrite H1, E in Hn1. done.
Qed.

(** The chain is exhausted after finitely many jobs, whatever the pattern's
    code jobs do in between, and stays so. *)
Lemma chain_exhausted (st : State) :
  (chain st <> [] -> RunReaction ∈ jobs st) ->
  exists n0, forall n, n0 <= n -> chain (run n st) = [].
Proof.
  remember (length (chain st)) as m eqn:Hm. revert st Hm.
  induction (lt_wf m) as [m _ IH]. intros st Hm Hq.
  destruct (decide (chain st = [])) as [E|E].
  - exists 0. intros n _. pose proof (run_settled n st E) as H.
    apply harness_eq in H as (-> & _). done.
  - destruct (reaction_comes st E (Hq E)) as (n1 & Hlt & Hq1).
    destruct (IH (length (chain (run n1 st)))) with (st := run n1 st) as (n2 & Hn2);
      [lia|done|done|].
    exists (n1 + n2). intros n Hn. replace n with (n1 + (n - n1)) by lia.
    rewrite run_add. apply Hn2. lia.
Qed.

End Frame.

(** ** The synchronous part of [test_correctness] *)

Section Enumeration.

Variable V : list (list (list TplItem)).

Lemma register_effect (r : Reaction) (st : State) :
  chain (register r st) = chain st ++ [r] /\
  settled (register r st) = settled st /\
  failures (register r st) = failures st /\
  console (register r st) = console st /\
  trace (register r st) = trace st /\
  heap (register r st) = heap st /\
  ((chain st <> [] -> RunReaction ∈ jobs st) -> RunReaction ∈ jobs (register r st)).
Proof.
  unfold register. destruct (chain st) as [|r0 c] eqn:E; cbn; rewrite ?E; repeat split; try done.
  - intros _. apply elem_of_app. right. left.
  - intros H. by apply H.
Qed.

Lemma scenario_effect (code : Code) (permutation : list Chosen) (st : State) :
  let st' := scenario V code permutation st in
  (exists v, chain st' = chain st ++
     [thenR (NotCallable v); thenR (Validate (length (heap st)) V permutation)]) /\
  settled st' = settled st /\ failures st' = failures st /\
  console st' = console st /\
  trace st' = trace st ++ [EvInvoke (length (heap st))] /\
  length (heap st') = S (length (heap st)) /\
  ((chain st <> [] -> RunReaction ∈ jobs st) -> RunReaction ∈ jobs st').
Proof.
  unfold scenario, alloc, promise_then. cbn zeta.
  set (args := tracked _ permutation).
  set (st1 := log _ _).
  destruct (exec args code st1) as [c st2] eqn:E.
  destruct (exec_frame code args st1) as (H1 & (new & H2 & _) & H3 & _).
  rewrite E in *. cbn [snd] in *. apply harness_eq in H1 as (Hc & Hs & Hf & Ho & Ht).
  change (chain st1) with (chain st) in Hc. change (settled st1) with (settled st) in Hs.
  change (failures st1) with (failures st) in Hf. change (console st1) with (console st) in Ho.
  change (trace st1) with (trace st ++ [EvInvoke (length (heap st))]) in Ht.
  change (heap st1) with (heap st ++ [[]]) in H3. change (jobs st1) with (jobs st) in H2.
  clearbody st1.
  set (v := wait_for _).
  destruct (register_effect (thenR (NotCallable v)) st2) as (R1 & R2 & R3 & R4 & R5 & R6 & R7).
  set (st3 := register (thenR (NotCallable v)) st2) in *.
  destruct (register_effect (thenR (Validate (length (heap st)) V permutation)) st3)
    as (Q1 & Q2 & Q3 & Q4 & Q5 & Q6 & Q7).
  split_and!.
  - exists v. rewrite Q1, R1, Hc. cbn. by rewrite <- app_assoc.
  - by rewrite Q2, R2, Hs.
  - by rewrite Q3, R3, Hf.
  - by rewrite Q4, R4, Ho.
  - by rewrite Q5, R5, Ht.
  - rewrite Q6, R6, H3, length_app. cbn. lia.
  - intros J. apply Q7. intros _. apply R7. intros N. rewrite H2.
    apply elem_of_app. left. apply J. by rewrite <- Hc.
Qed.

Lemma scenarios_effect (code : Code) (perms : list (list Chosen)) (st : State) :
  let st' := foldl (fun s permutation => scenario V code permutation s) st perms in
  (exists rs, pending V (length (heap st)) perms rs /\ chain st' = chain st ++ rs) /\
  settled st' = settled st /\ failures st' = failures st /\
  console st' = console st /\
  trace st' = trace st ++ (EvInvoke <$> seq (length (heap st)) (length perms)) /\
  length (heap st') = length (heap st) + length perms /\
  ((chain st <> [] -> RunReaction ∈ jobs st) -> chain st' <> [] -> RunReaction ∈ jobs st').
Proof.
  revert st; induction perms as [|permutation perms IH]; intros st; cbn zeta.
  - cbn. split_and!; try done; rewrite ?app_nil_r; try done.
    exists []. split; [constructor|by rewrite app_nil_r].
  - cbn [foldl].
    destruct (scenario_effect code permutation st) as ([v S1] & S2 & S3 & S4 & S5 & S6 & S7).
    destruct (IH (scenario V code permutation st)) as ([rs [I0 I1]] & I2 & I3 & I4 & I5 & I6 & I7).
    rewrite S6 in *. split_and!.
    + exists (thenR (NotCallable v) :: thenR (Validate (length (heap st)) V permutation) :: rs).
      split; [by constructor|]. rewrite I1, S1, <- app_assoc. done.
    + congruence.
    + congruence.
    + congruence.
    + rewrite I5, S5, <- app_assoc. done.
    + rewrite I6. cbn. lia.
    + intros J _. apply I7; [auto|]. rewrite I1, S1. by destruct (chain st).
Qed.

Lemma sync_phase (actions : list Action) (code : Code) (st : State) :
  let s0 := test_correctness actions V code st in
  (exists rs, pending V (length (heap st)) (visited actions) rs /\
     chain s0 = rs ++ tail_chain) /\
  settled s0 = Fulfilled VUndefined /\ failures s0 = [] /\
  console s0 = console st /\
  trace s0 = trace st ++ (EvInvoke <$> seq (length (heap st)) (length (visited actions))) /\
  RunReaction ∈ jobs s0.
Proof.
  unfold test_correctness, promise_then, promise_catch. cbn zeta.
  rewrite all_permutations_nested, <- visited_nested.
  set (s1 := set_failures _ _).
  destruct (scenarios_effect code (visited actions) s1)
    as ([rs [I0 I1]] & I2 & I3 & I4 & I5 & I6 & I7).
  set (s2 := foldl _ s1 _) in *.
  destruct (register_effect (thenR Report) s2) as (R1 & R2 & R3 & R4 & R5 & R6 & R7).
  set (s3 := register (thenR Report) s2) in *.
  destruct (register_effect (catchR LogAndReturn) s3) as (Q1 & Q2 & Q3 & Q4 & Q5 & Q6 & Q7).
  split_and!.
  - exists rs. split; [done|]. rewrite Q1, R1, I1, <- app_assoc. done.
  - by rewrite Q2, R2, I2.
  - by rewrite Q3, R3, I3.
  - by rewrite Q4, R4, I4.
  - by rewrite Q5, R5, I5.
  - apply Q7. intros _. apply R7. intros N. by apply I7.
Qed.

End Enumeration.

(** ** The promise chain, job after job *)

Section Chain.

Variables (V : list (list (list TplItem))) (k0 : nat) (perms : list (list Chosen))
          (T0 : list Event) (C0 : list jsval).

Lemma pending_then_only (k : nat) (todo : list (list Chosen)) (rs : list Reaction) :
  pending V k todo rs -> Forall (fun r => onRejected r = None) rs.
Proof. induction 1; repeat constructor; done. Qed.

Lemma failures_of_snoc (events : list Event) (ev : Event) :
  failures_of (events ++ [ev]) = failures_of events ++ failures_of [ev].
Proof. unfold failures_of. by rewrite bind_app. Qed.

Lemma resolve_report (fs : list string) : resolve (report fs) = Fulfilled (report fs).
Proof. unfold report. by destruct (Nat.ltb _ _). Qed.

Lemma reaction_invariant (st : State) :
  invariant V k0 perms T0 C0 (harness st) ->
  invariant V k0 perms T0 C0 (harness (run_job RunReaction st)).
Proof.
  intros Hinv. unfold run_job.
  - destruct st as [w h q ch se fa co tr sc]. unfold harness in *. cbn in *.
    inversion Hinv as [done todo rs events Hp Hpend Hval
                      |done permutation todo rs events Hp Hpend Hval
                      |done permutation todo rs events snapshot e Hp Hrs Hval Hthrow
                      |c events Hc Hval
                      |done permutation todo events snapshot e Hp Hval Hthrow]; subst; clear Hinv.
    + (* the next reaction is a scenario's first, or the report *)
      inversion Hpend as [|k permutation todo' v rs' Hpend']; subst; cbn.
      * rewrite resolve_report. cbn. rewrite app_nil_r. apply inv_reported; auto.
      * cbn. eapply inv_validating; eauto.
    + (* validating *)
      cbn. unfold read; cbn.
      destruct (is_valid_sequence (default [] (h !! (k0 + length done))) V) as [[|]|e] eqn:E; cbn.
      all: assert (rs ++ tail_chain <> []) as Hne by (unfold tail_chain; destruct rs; done).
      all: destruct (rs ++ tail_chain) as [|r0 rest] eqn:Erest; [done|]; cbn; rewrite <- Erest.
      * set (snapshot := default [] (h !! (k0 + length done))) in *.
        replace (failures_of events) with (failures_of (events ++
          [EvValidate (k0 + length done) permutation snapshot (Returned true)]))
          by (rewrite failures_of_snoc; cbn; apply app_nil_r).
        rewrite <- (app_assoc T0). apply (inv_waiting V _ _ _ _ (done ++ [permutation]) todo).
        -- by rewrite <- app_assoc.
        -- rewrite length_app. cbn.
           by replace (k0 + (length done + 1)) with (S (k0 + length done)) by lia.
        -- by constructor.
      * set (snapshot := default [] (h !! (k0 + length done))) in *.
        replace (failures_of events ++ [failure_message permutation snapshot])
          with (failures_of (events ++
          [EvValidate (k0 + length done) permutation snapshot (Returned false)]))
          by (rewrite failures_of_snoc; done).
        rewrite <- (app_assoc T0). apply (inv_waiting V _ _ _ _ (done ++ [permutation]) todo).
        -- by rewrite <- app_assoc.
        -- rewrite length_app. cbn.
           by replace (k0 + (length done + 1)) with (S (k0 + length done)) by lia.
        -- by constructor.
      * rewrite <- (app_assoc T0). unfold tail_chain.
        replace (rs ++ [thenR Report; catchR LogAndReturn])
           with ((rs ++ [thenR Report]) ++ [catchR LogAndReturn]) by (by rewrite <- app_assoc).
        eapply inv_faulted; eauto.
        apply Forall_app. split; [by eapply pending_then_only|by repeat constructor].
    + (* faulted *)
      destruct rs as [|r rs]; cbn.
      * pose proof (validator_throws _ _ _ Hthrow) as ->. cbn.
        eapply inv_fault_returned; eauto.
      * inversion Hrs as [|? ? Hr Hrs']; subst. rewrite Hr. cbn.
        destruct (rs ++ [catchR LogAndReturn]) as [|r0 rest] eqn:Erest; [by destruct rs|].
        cbn. rewrite <- Erest. eapply inv_faulted; eauto.
    + (* reported *)
      destruct Hc as [->| ->]; cbn; apply inv_reported; auto.
    + (* fault returned *)
      cbn. eapply inv_fault_returned; eauto.
Qed.

Lemma step_invariant (st : State) :
  invariant V k0 perms T0 C0 (harness st) -> invariant V k0 perms T0 C0 (harness (step st)).
Proof.
  intros Hinv. destruct (jobs st !! next st) as [[|args code]|] eqn:Hj.
  - unfold step. rewrite Hj. by apply reaction_invariant.
  - destruct (step_code args code st Hj) as [-> _]. done.
  - unfold step. by rewrite Hj.
Qed.

Lemma run_invariant (n : nat) (st : State) :
  invariant V k0 perms T0 C0 (harness st) -> invariant V k0 perms T0 C0 (harness (run n st)).
Proof.
  revert st; induction n as [|n IH]; intros st H; [done|]. cbn. apply IH. by apply step_invariant.
Qed.

End Chain.

(** ** The run as a whole *)

Lemma failures_of_app (a b : list Event) :
  failures_of (a ++ b) = failures_of a ++ failures_of b.
Proof. unfold failures_of. apply bind_app. Qed.
Lemma validated_of_app (a b : list Event) :
  validated_of (a ++ b) = validated_of a ++ validated_of b.
Proof. unfold validated_of. apply bind_app. Qed.
Lemma faults_of_app (a b : list Event) :
  faults_of (a ++ b) = faults_of a ++ faults_of b.
Proof. unfold faults_of. apply bind_app. Qed.

Section AtRest.

Variable V : list (list (list TplItem)).

Lemma initial_invariant (actions : list Action) (code : Code) (st : State) :
  invariant V (length (heap st)) (visited actions)
    (trace st ++ invocations (length (heap st)) (length (visited actions)))
    (console st)
    (harness (test_correctness actions V code st)).
Proof.
  destruct (sync_phase V actions code st) as ([rs [H0 H1]] & H2 & H3 & H4 & H5 & _).
  unfold harness. rewrite H1, H2, H3, H4, H5.
  fold (invocations (length (heap st)) (length (visited actions))).
  assert (pending V (length (heap st) + length (@nil (list Chosen))) (visited actions) rs)
    as H0' by (by rewrite Nat.add_0_r).
  pose proof (inv_waiting V (length (heap st)) (visited actions)
                (trace st ++ invocations (length (heap st)) (length (visited actions)))
                (console st) [] (visited actions) rs [] eq_refl H0'
                (validated_nil V _)) as H.
  by rewrite app_nil_r in H.
Qed.

Lemma invocations_silent (k0 n : nat) :
  failures_of (invocations k0 n) = [] /\ validated_of (invocations k0 n) = [] /\
  faults_of (invocations k0 n) = [].
Proof.
  unfold invocations. generalize (seq k0 n). intros l.
  induction l as [|k l IH]; [done|].
  unfold failures_of, validated_of, faults_of in *. rewrite fmap_cons, !bind_cons. exact IH.
Qed.

Lemma validated_summary (k0 : nat) (done : list (list Chosen)) (events : list Event) :
  validated V k0 done events ->
  validated_of events = done /\ faults_of events = [] /\
  mark <$> events = Validated <$> seq k0 (length done) /\
  Forall (fun ev => exists k p s b,
            ev = EvValidate k p s (Returned b) /\ is_valid_sequence s V = Returned b) events.
Proof.
  induction 1 as [|done events permutation snapshot verdict _ (I1 & I2 & I3 & I4) Hv].
  - done.
  - rewrite validated_of_app, faults_of_app, fmap_app, I1, I2, I3.
    split_and!; try done.
    + rewrite length_app, seq_app, fmap_app. done.
    + apply Forall_app. split; [done|]. constructor; [|done]. by eexists _, _, _, _.
Qed.

Lemma since_app (st s : State) (events : list Event) :
  trace s = trace st ++ events -> since st s = events.
Proof. intros H. unfold since. rewrite H. apply drop_app_length. Qed.

(** What the harness's variables hold once the returned promise is settled:
    either every validation returned and the report was made, or one threw
    and its exception went through the chain to the [catch]. *)
Lemma at_rest (actions : list Action) (code : Code) (st : State) (n : nat) :
  let s := run n (test_correctness actions V code st) in
  let k0 := length (heap st) in
  chain s = [] ->
  (exists events,
     since st s = invocations k0 (length (visited actions)) ++ events /\
     validated V k0 (visited actions) events /\
     settled s = Fulfilled (report (failures s)) /\
     failures s = failures_of events /\ console s = console st) \/
  (exists done permutation todo events snapshot e,
     visited actions = done ++ permutation :: todo /\
     since st s = invocations k0 (length (visited actions)) ++ events ++
       [EvValidate (k0 + length done) permutation snapshot (Threw e)] /\
     validated V k0 done events /\
     is_valid_sequence snapshot V = Threw e /\
     settled s = Fulfilled e /\
     failures s = failures_of events /\ console s = console st ++ [e]).
Proof.
  intros s k0 Hc. subst k0.
  pose proof (run_invariant V _ _ _ _ n _ (initial_invariant actions code st)) as Hinv.
  fold s in Hinv. clearbody s. unfold harness in Hinv. rewrite Hc in Hinv.
  remember (settled s) as se. remember (failures s) as fa.
  remember (console s) as co. remember (trace s) as tr.
  inversion Hinv as [done todo rs events Hp Hpend Hval
                    |done permutation todo rs events Hp Hpend Hval
                    |done permutation todo rs events snapshot e Hp Hrs Hval Hthrow
                    |c events Hcc Hval
                    |done permutation todo events snapshot e Hp Hval Hthrow]; subst.
  - by destruct rs.
  - by destruct rs.
  - left. exists events. split_and!; try done.
    apply since_app. rewrite app_assoc. congruence.
  - right. exists done, permutation, todo, events, snapshot, e. split_and!; try done.
    apply since_app. rewrite app_assoc. congruence.
Qed.

(** The trace at any time: every scenario invoked, in order, then the
    scenarios validated so far, in order. *)
Lemma trace_shape (actions : list Action) (code : Code) (st : State) (n : nat) :
  let s := run n (test_correctness actions V code st) in
  let k0 := length (heap st) in
  exists m, m <= length (visited actions) /\
    mark <$> since st s
    = (Invoked <$> seq k0 (length (visited actions))) ++ (Validated <$> seq k0 m).
Proof.
  intros s k0. subst k0.
  pose proof (run_invariant V _ _ _ _ n _ (initial_invariant actions code st)) as Hinv.
  fold s in Hinv. clearbody s. unfold harness in Hinv.
  assert (mark <$> invocations (length (heap st)) (length (visited actions))
          = Invoked <$> seq (length (heap st)) (length (visited actions))) as Hmark.
  { unfold invocations. by rewrite <- list_fmap_compose. }
  remember (chain s) as ch. remember (settled s) as se. remember (failures s) as fa.
  remember (console s) as co. remember (trace s) as tr.
  inversion Hinv as [done todo rs events Hp Hpend Hval
                    |done permutation todo rs events Hp Hpend Hval
                    |done permutation todo rs events snapshot e Hp Hrs Hval Hthrow
                    |c events Hcc Hval
                    |done permutation todo events snapshot e Hp Hval Hthrow]; subst.
  all: destruct (validated_summary _ _ _ Hval) as (_ & _ & Hm & _).
  all: match goal with
       | H : _ = trace _ |- _ =>
           symmetry in H; rewrite <- app_assoc in H; apply since_app in H; rewrite H
       end.
  all: rewrite fmap_app, Hmark.
  - exists (length done). split; [rewrite Hp, length_app; lia|]. by rewrite Hm.
  - exists (length done). split; [rewrite Hp, length_app; lia|]. by rewrite Hm.
  - exists (S (length done)). split; [rewrite Hp, length_app; cbn; lia|].
    rewrite fmap_app, Hm. replace (S (length done)) with (length done + 1) by lia.
    by rewrite seq_app, fmap_app.
  - exists (length (visited actions)). split; [done|]. by rewrite Hm.
  - exists (S (length done)). split; [rewrite Hp, length_app; cbn; lia|].
    rewrite fmap_app, Hm. replace (S (length done)) with (length done + 1) by lia.
    by rewrite seq_app, fmap_app.
Qed.

Lemma resolves (actions : list Action) (code : Code) (st : State) :
  exists n0, forall n, n0 <= n -> chain (run n (test_correctness actions V code st)) = [].
Proof.
  apply chain_exhausted. intros _.
  by destruct (sync_phase V actions code st) as (_ & _ & _ & _ & _ & H).
Qed.

End AtRest.

(** ** What is recorded stays recorded *)

Section Recording.

Lemma react_frame (r : Reaction) (s : Settled) (st : State) :
  heap (react r s st).2 = heap st /\ world (react r s st).2 = world st /\
  jobs (react r s st).2 = jobs st /\
  exists new, trace (react r s st).2 = trace st ++ new /\
    Forall (fun ev => exists k p v, ev = EvValidate k p (read k st) v) new.
Proof.
  assert (forall h x, let st' := (settle (run_handler h x st)).2 in
    heap st' = heap st /\ world st' = world st /\ jobs st' = jobs st /\
    exists new, trace st' = trace st ++ new /\
      Forall (fun ev => exists k p v, ev = EvValidate k p (read k st) v) new) as Hh.
  { intros [v|k V p| |] x; cbn.
    - split_and!; try done. exists []. by rewrite app_nil_r.
    - destruct (is_valid_sequence (read k st) V) as [[|]|e] eqn:E; cbn;
        (split_and!; try done; eexists; split; [done|]);
        repeat constructor; by eexists _, _, _.
    - split_and!; try done. exists []. by rewrite app_nil_r.
    - split_and!; try done. exists []. by rewrite app_nil_r. }
  assert (heap st = heap st /\ world st = world st /\ jobs st = jobs st /\
    exists new, trace st = trace st ++ new /\
      Forall (fun ev => exists k p v, ev = EvValidate k p (read k st) v) new) as Hid.
  { split_and!; try done. exists []. by rewrite app_nil_r. }
  unfold react. destruct s as [v|e].
  - destruct (callable (onFulfilled r)); [apply Hh|apply Hid].
  - destruct (callable (onRejected r)); [apply Hh|apply Hid].
Qed.

Lemma reaction_recording (st : State) :
  (forall k, read k st `prefix_of` read k (run_job RunReaction st)) /\
  exists new, trace (run_job RunReaction st) = trace st ++ new /\
    Forall (fun ev => exists k p v, ev = EvValidate k p (read k st) v) new.
Proof.
  unfold run_job. destruct (chain st) as [|r pending]; cbn.
  { split; [done|]. exists []. by rewrite app_nil_r. }
  destruct (react_frame r (settled st) st) as (Hh & _ & _ & new & Ht & Hn).
  destruct (react r (settled st) st) as [s st1]. cbn in *.
  assert (forall k, read k st1 = read k st) as Hr by (intros k; unfold read; by rewrite Hh).
  destruct pending; cbn; (split; [intros k; unfold read; cbn; by rewrite Hh|]);
    exists new; (split; [done|]); done.
Qed.

(** A job only appends to the arrays of the heap, and the validations it
    logs read the heap as it was when the job started. *)
Lemma step_recording (st : State) :
  (forall k, read k st `prefix_of` read k (step st)) /\
  exists new, trace (step st) = trace st ++ new /\
    Forall (fun ev => exists k p v, ev = EvValidate k p (read k st) v) new.
Proof.
  destruct (jobs st !! next st) as [[|args code]|] eqn:Hj.
  - unfold step. rewrite Hj. exact (reaction_recording (taken st)).
  - destruct (step_code args code st Hj) as (Hh & _ & _ & Hp).
    split; [done|]. exists []. apply harness_eq in Hh as (_ & _ & _ & _ & ->).
    by rewrite app_nil_r.
  - unfold step. rewrite Hj. split; [done|]. exists []. by rewrite app_nil_r.
Qed.

Lemma later_snapshots (n : nat) (st : State) :
  (exists new, trace (run n st) = trace st ++ new) /\
  forall k p snapshot v,
    EvValidate k p snapshot v ∈ since st (run n st) ->
    read k st `prefix_of` snapshot.
Proof.
  revert st; induction n as [|n IH]; intros st; cbn [run].
  - split; [exists []; by rewrite app_nil_r|]. intros k p snapshot v H.
    unfold since in H. rewrite drop_all in H. by apply elem_of_nil in H.
  - destruct (step_recording st) as (Hmono & new1 & Ht1 & Hn1).
    destruct (IH (step st)) as ((new2 & Ht2) & Hlater).
    split; [exists (new1 ++ new2); by rewrite Ht2, Ht1, <- app_assoc|].
    intros k p snapshot v H.
    rewrite (since_app st _ (new1 ++ new2)) in H by (by rewrite Ht2, Ht1, <- app_assoc).
    apply elem_of_app in H as [H|H].
    + rewrite Forall_forall in Hn1. destruct (Hn1 _ H) as (k' & p' & v' & [= -> -> -> ->]).
      done.
    + etrans; [apply Hmono|]. apply (Hlater k p snapshot v).
      by rewrite (since_app _ _ new2).
Qed.

Lemma exec_returning_null (code : Code) (args : list Tracked) (st : State) :
  exec args (returning_null code) st
  = match exec args code st with
    | (Threw _, st') => (Returned VNull, st')
    | r => r
    end.
Proof.
  revert st; induction code as [v|e|i k IH|deferred _ k IH|update k IH]; intros st;
    cbn [exec returning_null].
  - done.
  - done.
  - destruct (call_argument args i st) as [c st1]. apply IH.
  - apply IH.
  - apply IH.
Qed.

Lemma scenario_returning_null V (code : Code) (permutation : list Chosen) (st : State) :
  scenario V (returning_null code) permutation st = scenario V code permutation st.
Proof.
  unfold scenario. cbn zeta. destruct (alloc st) as [k st1].
  rewrite exec_returning_null.
  by destruct (exec _ code _) as [[v|e] st2].
Qed.

End Recording.



(** ** Verdicts and failures *)

Lemma validated_verdicts V k0 done events :
  validated V k0 done events -> judged_by V events.
Proof.
  unfold judged_by. induction 1 as [|? ? ? ? ? _ IH Hv]; [constructor|].
  apply Forall_app. split; [done|]. by constructor.
Qed.

Lemma invocations_verdicts V k0 n : judged_by V (invocations k0 n).
Proof. unfold judged_by, invocations. apply Forall_fmap, Forall_true. done. Qed.

Lemma no_template_failures k0 done events :
  validated [] k0 done events -> length (failures_of events) = length done.
Proof.
  induction 1 as [|? ? ? ? ? _ IH Hv]; [done|].
  rewrite failures_of_snoc, !length_app, IH. cbn in Hv. injection Hv as <-. done.
Qed.


(** ** The generator on concatenations *)

Section GeneratorMore.

Lemma nested_app (args1 args2 : list Action) :
  nested (args1 ++ args2)
  = p1 ← nested args1; (fun p2 => p1 ++ p2) <$> nested args2.
Proof.
  induction args1 as [|a rest IH]; cbn [nested app].
  - cbn. rewrite app_nil_r. symmetry. apply list_fmap_id.
  - rewrite IH. generalize (action_outcomes a). intros outs.
    induction outs as [|o outs IHo]; [done|].
    rewrite !bind_cons, bind_app, IHo. f_equal.
    generalize (nested rest). intros l. clear.
    induction l as [|p l IHl]; [done|].
    rewrite fmap_cons, !bind_cons, fmap_app, IHl. f_equal.
    rewrite <- list_fmap_compose. done.
Qed.

Lemma choices_nested_cons (a : Action) (rest : list Action) :
  choices <$> nested (a :: rest)
  = o ← action_outcomes a; cons (oid o) <$> (choices <$> nested rest).
Proof.
  cbn [nested]. generalize (action_outcomes a). intros outs.
  induction outs as [|o outs IH]; [done|].
  rewrite !bind_cons, fmap_app, IH. f_equal.
  rewrite <- !list_fmap_compose. done.
Qed.

Lemma NoDup_heads (K : list (list nat)) (outs : list Outcome) :
  NoDup (oid <$> outs) -> NoDup K ->
  NoDup (o ← outs; cons (oid o) <$> K).
Proof.
  intros Ho HK. induction outs as [|o outs IH]; [constructor|].
  rewrite fmap_cons in Ho. apply NoDup_cons in Ho as [Hnotin Ho].
  rewrite bind_cons. apply NoDup_app. split_and!.
  - apply NoDup_fmap_2; [|done]. intros x y [=]. done.
  - intros l Hl Hl'. apply list_elem_of_fmap in Hl as (k & -> & _).
    apply list_elem_of_bind in Hl' as (o' & Hk & Ho').
    apply list_elem_of_fmap in Hk as (k' & [= E _] & _).
    apply Hnotin. rewrite E. by apply list_elem_of_fmap_2.
  - by apply IH.
Qed.

Lemma NoDup_choices (args : list Action) :
  Forall (fun a => NoDup (oid <$> action_outcomes a)) args ->
  NoDup (choices <$> nested args).
Proof.
  induction 1 as [|a rest Ha _ IH].
  - cbn. apply NoDup_singleton.
  - rewrite choices_nested_cons. by apply NoDup_heads.
Qed.

End GeneratorMore.

(** ** The validator on any template *)

Section ValidatorMore.

Lemma outcome_loop_listed (r : Chosen) (items : list TplItem) :
  outcome_loop r items = true <->
  exists o, ItOutcome o ∈ items /\ oid o = oid (outcome r).
Proof.
  induction items as [|it items IH]; cbn [outcome_loop].
  - split; [done|]. intros (o & H & _). by apply elem_of_nil in H.
  - destruct (same_reference it (outcome r)) eqn:E.
    + split; [|done]. intros _. destruct it as [a|o| |]; try done.
      exists o. split; [left|]. by apply Nat.eqb_eq.
    + rewrite IH. split.
      * intros (o & H & Ho). exists o. split; [by right|done].
      * intros (o & H & Ho). exists o. split; [|done].
        apply elem_of_cons in H as [<-|H]; [|done].
        cbn in E. apply Nat.eqb_neq in E. done.
Qed.

Lemma position_fits_dec (r : Chosen) (valid_action : list TplItem) (valid_name : string) :
  item_name (first_item valid_action) = Some valid_name ->
  (negb (String.eqb (name r) valid_name) = false /\
   negb (action_fits_pattern r valid_action) = false) <-> position_fits r valid_action.
Proof.
  unfold position_fits, first_item.
  destruct (valid_action !! 0) as [first|]; cbn; [|done].
  intros Hfirst. split.
  - intros [Hn Ha]. exists first. split; [done|].
    apply negb_false_iff in Hn, Ha. apply String.eqb_eq in Hn. by rewrite Hn.
  - intros (f & [= <-] & Hn & Ha). rewrite Ha. split; [|done].
    rewrite Hfirst in Hn. injection Hn as ->.
    apply negb_false_iff, String.eqb_eq. done.
Qed.

Lemma unreadable_fits_nothing (r : Chosen) (valid_action : list TplItem) :
  unreadable valid_action -> ~ position_fits r valid_action.
Proof.
  unfold unreadable, position_fits, first_item. intros H (first & Hf & Hn & _).
  rewrite Hf in H. cbn in H. congruence.
Qed.


Lemma fits_loop_true (s : list Chosen) (t : list (list TplItem)) :
  length s = length t ->
  fits_loop s t = Returned true <->
  forall i r en, s !! i = Some r -> t !! i = Some en -> position_fits r en.
Proof.
  revert t; induction s as [|r s IH]; intros [|en t] Hlen; try done.
  cbn [fits_loop]. cbn in Hlen.
    destruct (item_name (first_item en)) as [valid_name|] eqn:Hfirst.
    + pose proof (position_fits_dec r en valid_name Hfirst) as Hpos.
      destruct (negb (String.eqb (name r) valid_name)) eqn:En.
      { split; [done|]. intros H. specialize (H 0 r en eq_refl eq_refl).
        apply Hpos in H as [? _]. done. }
      destruct (negb (action_fits_pattern r en)) eqn:Ea.
      { split; [done|]. intros H. specialize (H 0 r en eq_refl eq_refl).
        apply Hpos in H as [_ ?]. done. }
      rewrite IH by lia. split.
      * intros H [|i] r' en' Hr He; cbn in *.
        -- simplify_eq. by apply Hpos.
        -- by eapply H.
      * intros H i r' en' Hr He. by apply (H (S i)).
    + split; [done|]. intros H. specialize (H 0 r en eq_refl eq_refl).
      by apply unreadable_fits_nothing in H.
Qed.

Lemma fits_loop_throws (s : list Chosen) (t : list (list TplItem)) (e : jsval) :
  length s = length t ->
  fits_loop s t = Threw e <->
  e = type_error /\
  exists i r en, s !! i = Some r /\ t !! i = Some en /\ unreadable en /\
    forall j r' en', j < i -> s !! j = Some r' -> t !! j = Some en' -> position_fits r' en'.
Proof.
  revert t; induction s as [|r s IH]; intros [|en t] Hlen; try done.
  - split; [done|]. intros (_ & i & r & en & H & _). done.
  - cbn [fits_loop]. cbn in Hlen.
    destruct (item_name (first_item en)) as [valid_name|] eqn:Hfirst.
    + pose proof (position_fits_dec r en valid_name Hfirst) as Hpos.
      assert (~ unreadable en) as Hne by (unfold unreadable; congruence).
      destruct (negb (String.eqb (name r) valid_name)) eqn:En.
      { split; [done|].
        intros (_ & [|i] & r' & en' & Hr & He & Hu & H); cbn in *; [congruence|].
        specialize (H 0 r en ltac:(lia) eq_refl eq_refl).
        apply Hpos in H as [? _]. done. }
      destruct (negb (action_fits_pattern r en)) eqn:Ea.
      { split; [done|].
        intros (_ & [|i] & r' & en' & Hr & He & Hu & H); cbn in *; [congruence|].
        specialize (H 0 r en ltac:(lia) eq_refl eq_refl).
        apply Hpos in H as [_ ?]. done. }
      rewrite IH by lia. split.
      * intros (-> & i & r' & en' & Hr & He & Hu & H). split; [done|].
        exists (S i), r', en'. split_and!; try done.
        intros [|j] r'' en'' Hj Hr' He'; cbn in *.
        -- simplify_eq. by apply Hpos.
        -- eapply (H j); [lia|done..].
      * intros (-> & [|i] & r' & en' & Hr & He & Hu & H); cbn in *; [congruence|].
        split; [done|]. exists i, r', en'. split_and!; try done.
        intros j r'' en'' Hj Hr' He'. apply (H (S j)); [lia|done..].
    + split.
      * intros [= <-]. split; [done|]. exists 0, r, en. split_and!; try done.
        intros j ? ? Hj. lia.
      * intros (-> & _). done.
Qed.

Lemma sequence_fits_throws_type_error (s : list Chosen) (t : list (list TplItem)) (e : jsval) :
  sequence_fits_pattern s t = Threw e -> e = type_error.
Proof.
  unfold sequence_fits_pattern.
  destruct (Nat.eqb_spec (length s) (length t)) as [E|N]; cbn [negb]; [|done].
  intros H. by apply fits_loop_throws in H as [-> _].
Qed.


(** [is_valid_sequence] looks at every template: it throws when one of them
    does, and otherwise answers whether one of them fits. *)
Lemma valid_loop_closed (s : list Chosen) (V : list (list (list TplItem))) (flag : bool) :
  valid_loop s V flag
  = if existsb (throws_b s) V then Threw type_error
    else Returned (flag || existsb (fits_b s) V).
Proof.
  revert flag; induction V as [|t V IH]; intros flag; cbn [valid_loop existsb].
  - by rewrite orb_false_r.
  - unfold throws_b at 1, fits_b at 1.
    destruct (sequence_fits_pattern s t) as [b|e] eqn:E.
    + rewrite IH. cbn [orb]. destruct (existsb (throws_b s) V); [done|].
      f_equal. by destruct b, flag.
    + cbn. by rewrite (sequence_fits_throws_type_error _ _ _ E).
Qed.

Lemma existsb_elem_of {A} (f : A -> bool) (l : list A) :
  existsb f l = true <-> exists x, x ∈ l /\ f x = true.
Proof.
  rewrite existsb_exists. split; intros (x & H & Hf); exists x; split; try done;
    by apply list_elem_of_In.
Qed.

Lemma is_valid_sequence_nil (V : list (list (list TplItem))) :
  exists verdict,
    is_valid_sequence [] V = Returned verdict /\ (verdict = true <-> [] ∈ V).
Proof.
  unfold is_valid_sequence. rewrite valid_loop_closed.
  assert (forall T, sequence_fits_pattern [] T = Returned (Nat.eqb (length T) 0)) as Hs.
  { intros [|en T]; done. }
  assert (existsb (throws_b []) V = false) as ->.
  { apply not_true_iff_false. rewrite existsb_elem_of. intros (T & _ & H).
    unfold throws_b in H. by rewrite Hs in H. }
  eexists. split; [done|]. cbn [orb]. rewrite existsb_elem_of. split.
  - intros (T & HT & H). unfold fits_b in H. rewrite Hs in H. by destruct T.
  - intros H. exists []. done.
Qed.

End ValidatorMore.

(** ** Patterns that leave nothing for later *)

Section Synchronous.

Lemma exec_synchronous (code : Code) (args : list Tracked) (st : State) :
  synchronous code -> jobs (exec args code st).2 = jobs st.
Proof.
  intros H. revert st.
  induction H as [v|e|i k _ IH|update k _ IH]; intros st; cbn [exec]; try done.
  - destruct (call_argument args i st) as [c st1] eqn:E. rewrite IH.
    destruct (call_argument_frame args i st) as (_ & Hj & _). by rewrite E in Hj.
  - by rewrite IH.
Qed.

Lemma register_quiet (r : Reaction) (st : State) : quiet st -> quiet (register r st).
Proof.
  unfold quiet, register. intros H. destruct (chain st); cbn; [|done].
  apply Forall_app. split; [done|by constructor].
Qed.

Lemma scenario_quiet V (code : Code) (permutation : list Chosen) (st : State) :
  synchronous code -> quiet st -> quiet (scenario V code permutation st).
Proof.
  intros Hs Hq. unfold scenario, alloc, promise_then.
  set (st1 := log _ _).
  pose proof (exec_synchronous code (tracked (length (heap st)) permutation) st1 Hs) as Hj.
  destruct (exec _ code st1) as [c st2]. cbn [snd] in Hj.
  do 2 apply register_quiet. unfold quiet. by rewrite Hj.
Qed.

Lemma test_correctness_quiet (actions : list Action) V (code : Code) (st : State) :
  synchronous code -> jobs st = [] -> quiet (test_correctness actions V code st).
Proof.
  intros Hs Hj. unfold test_correctness, promise_then, promise_catch.
  do 2 apply register_quiet. rewrite all_permutations_nested.
  set (s1 := set_failures _ _).
  assert (quiet s1) as Hq by (unfold quiet; cbn; rewrite Hj; constructor).
  clearbody s1. revert s1 Hq.
  induction (nested actions) as [|p ps IH]; intros s1 Hq; [done|].
  cbn. apply IH. by apply scenario_quiet.
Qed.

Lemma reaction_quiet (st : State) :
  quiet st ->
  quiet (run_job RunReaction st) /\ heap (run_job RunReaction st) = heap st.
Proof.
  unfold quiet, run_job. intros Hq.
  destruct (chain st) as [|r pending]; [done|].
  destruct (react_frame r (settled st) st) as (Hh & _ & Hjobs & _).
  destruct (react r (settled st) st) as [s st1]. cbn in *.
  destruct pending; cbn; rewrite Hjobs; (split; [|done]); [done|].
  apply Forall_app. split; [done|by constructor].
Qed.

Lemma step_quiet (st : State) : quiet st -> quiet (step st) /\ heap (step st) = heap st.
Proof.
  intros Hq. unfold step. destruct (jobs st !! next st) as [job|] eqn:Hj; [|done].
  assert (job = RunReaction) as ->.
  { unfold quiet in Hq. rewrite Forall_forall in Hq. apply Hq.
    by eapply list_elem_of_lookup_2. }
  apply (reaction_quiet (taken st)). unfold quiet, taken. cbn. by apply Forall_delete.
Qed.

Lemma run_quiet (n : nat) (st : State) :
  quiet st -> quiet (run n st) /\ heap (run n st) = heap st.
Proof.
  revert st; induction n as [|n IH]; intros st Hq; [done|]. cbn.
  destruct (step_quiet st Hq) as [Hq' Hh]. destruct (IH _ Hq') as [? ->]. done.
Qed.

Lemma quiet_snapshots (n : nat) (st : State) :
  quiet st ->
  forall k p snapshot v,
    EvValidate k p snapshot v ∈ since st (run n st) -> snapshot = read k st.
Proof.
  revert st; induction n as [|n IH]; intros st Hq k p snapshot v H; cbn [run] in H.
  - unfold since in H. rewrite drop_all in H. by apply elem_of_nil in H.
  - destruct (step_recording st) as (_ & new1 & Ht1 & Hn1).
    destruct (later_snapshots n (step st)) as ((new2 & Ht2) & _).
    destruct (step_quiet st Hq) as [Hq' Hh].
    rewrite (since_app st _ (new1 ++ new2)) in H by (by rewrite Ht2, Ht1, <- app_assoc).
    apply elem_of_app in H as [H|H].
    + rewrite Forall_forall in Hn1. by destruct (Hn1 _ H) as (k' & p' & v' & [= -> -> -> ->]).
    + rewrite (IH (step st) Hq' k p snapshot v); [by unfold read; rewrite Hh|].
      by rewrite (since_app _ _ new2).
Qed.

End Synchronous.

(** ** The arrays of the heap *)

Section Heap.

Lemma read_push_ne (k k' : nat) (x : Chosen) (st : State) :
  k' <> k -> read k' (push k x st) = read k' st.
Proof. intros H. unfold read, push. cbn. by rewrite list_lookup_alter_ne. Qed.


Lemma elem_of_read_push (k k' : nat) (x r : Chosen) (st : State) :
  r ∈ read k' (push k x st) -> r ∈ read k' st \/ (k' = k /\ r = x).
Proof.
  destruct (decide (k' = k)) as [->|Hne]; [|rewrite read_push_ne by done; by left].
  unfold read, push. cbn. rewrite list_lookup_alter_eq.
  destruct (heap st !! k); cbn; [|by left].
  intros [H|H%list_elem_of_singleton]%elem_of_app; [by left|by right].
Qed.

Lemma read_invoke (t : Tracked) (k : nat) (st : State) :
  read k (invoke t st).2 = read k (push (sequence_ref t) (tracked_action t) st).
Proof. unfold invoke. by destruct (fn_call _ _). Qed.

Lemma register_jobs (r : Reaction) (st : State) :
  exists new, jobs (register r st) = jobs st ++ new /\ Forall (fun j => j = RunReaction) new.
Proof.
  unfold register. destruct (chain st); cbn.
  - exists [RunReaction]. split; [done|by constructor].
  - exists []. by rewrite app_nil_r.
Qed.

Lemma scenario_heap V (code : Code) (permutation : list Chosen) (st : State) :
  heap (scenario V code permutation st)
  = heap (exec (tracked (length (heap st)) permutation) code
               (log (EvInvoke (length (heap st))) (alloc st).2)).2.
Proof.
  unfold scenario, alloc. cbn [snd].
  destruct (exec _ code _) as [c st3]. unfold promise_then. cbn [snd].
  destruct (register_effect (thenR (Validate (length (heap st)) V permutation))
              (register (thenR (NotCallable (wait_for
                 match c with Returned v => v | Threw _ => VNull end))) st3))
    as (_ & _ & _ & _ & _ & -> & _).
  by destruct (register_effect (thenR (NotCallable (wait_for
                 match c with Returned v => v | Threw _ => VNull end))) st3)
    as (_ & _ & _ & _ & _ & -> & _).
Qed.

Lemma scenario_jobs V (code : Code) (permutation : list Chosen) (st : State) :
  exists new,
    jobs (scenario V code permutation st)
    = jobs (exec (tracked (length (heap st)) permutation) code
                 (log (EvInvoke (length (heap st))) (alloc st).2)).2 ++ new /\
    Forall (fun j => j = RunReaction) new.
Proof.
  unfold scenario, alloc. cbn [snd].
  destruct (exec _ code _) as [c st3]. unfold promise_then. cbn [snd].
  destruct (register_jobs (thenR (Validate (length (heap st)) V permutation))
              (register (thenR (NotCallable (wait_for
                 match c with Returned v => v | Threw _ => VNull end))) st3))
    as (new2 & -> & H2).
  destruct (register_jobs (thenR (NotCallable (wait_for
                 match c with Returned v => v | Threw _ => VNull end))) st3)
    as (new1 & -> & H1).
  exists (new1 ++ new2). rewrite app_assoc. split; [done|]. by apply Forall_app.
Qed.

Lemma read_alloc (k : nat) (st : State) :
  read k (log (EvInvoke (length (heap st))) (alloc st).2) = read k st.
Proof.
  unfold read, alloc, log. cbn.
  destruct (decide (k < length (heap st))) as [H|H].
  - by rewrite lookup_app_l.
  - rewrite (lookup_ge_None_2 (heap st)) by lia.
    destruct (decide (k = length (heap st))) as [->|Hne].
    + by rewrite list_lookup_middle.
    + rewrite lookup_ge_None_2; [done|]. rewrite length_app. cbn. lia.
Qed.

End Heap.

(** ** Who writes to which array *)

Section Ownership.

Variable P : nat -> Chosen -> Prop.

Lemma invoke_owned (t : Tracked) (st : State) :
  P (sequence_ref t) (tracked_action t) -> owned P st -> owned P (invoke t st).2.
Proof.
  intros Ht [Hh Hj]. split.
  - intros k r. rewrite read_invoke. intros [H|[-> ->]]%elem_of_read_push; [by apply Hh|done].
  - destruct (invoke_frame t st) as (_ & -> & _). done.
Qed.

Lemma call_argument_owned (args : list Tracked) (i : nat) (st : State) :
  owned_args P args -> owned P st -> owned P (call_argument args i st).2.
Proof.
  intros Ha Ho. unfold call_argument.
  destruct (args !! i) as [t|] eqn:E; [|done].
  apply invoke_owned; [|done].
  unfold owned_args in Ha. rewrite Forall_forall in Ha. apply Ha.
  by eapply list_elem_of_lookup_2.
Qed.

Lemma exec_owned (code : Code) (args : list Tracked) (st : State) :
  owned_args P args -> owned P st -> owned P (exec args code st).2.
Proof.
  intros Ha. revert st.
  induction code as [v|e|i k IH|deferred _ k IH|update k IH]; intros st Ho; cbn [exec];
    try done.
  - pose proof (call_argument_owned args i st Ha Ho) as Ho'.
    destruct (call_argument args i st) as [produced st1]. by apply IH.
  - apply IH. destruct Ho as [Hh Hj]. split; [done|].
    cbn. apply Forall_app. split; [done|]. by constructor.
  - by apply IH.
Qed.

Lemma reaction_owned (st : State) : owned P st -> owned P (run_job RunReaction st).
Proof.
  intros [Hh Hj]. unfold run_job. destruct (chain st) as [|r pending]; [done|].
  destruct (react_frame r (settled st) st) as (Hheap & _ & Hjobs & _).
  destruct (react r (settled st) st) as [s st1]. cbn [snd] in *.
  assert (forall k, read k st1 = read k st) as Hr by (intros k; unfold read; by rewrite Hheap).
  destruct pending; (split; [intros k r' Hin; apply (Hh k r'); rewrite <- Hr; exact Hin|]).
  - cbn. by rewrite Hjobs.
  - cbn. rewrite Hjobs. apply Forall_app. split; [done|]. by constructor.
Qed.

Lemma step_owned (st : State) : owned P st -> owned P (step st).
Proof.
  intros [Hh Hj]. unfold step. destruct (jobs st !! next st) as [job|] eqn:E; [|done].
  assert (owned P (taken st)) as Ho.
  { split; [done|]. unfold taken. cbn. by apply Forall_delete. }
  destruct job as [|args code]; [by apply reaction_owned|].
  apply exec_owned; [|done]. rewrite Forall_forall in Hj.
  exact (Hj _ (list_elem_of_lookup_2 _ _ _ E)).
Qed.

Lemma run_owned (n : nat) (st : State) : owned P st -> owned P (run n st).
Proof.
  revert st; induction n as [|n IH]; intros st Ho; [done|]. cbn. by apply IH, step_owned.
Qed.

Lemma scenario_owned V (code : Code) (permutation : list Chosen) (st : State) :
  (forall r, r ∈ permutation -> P (length (heap st)) r) ->
  owned P st -> owned P (scenario V code permutation st).
Proof.
  intros Hp [Hh Hj].
  assert (owned P (exec (tracked (length (heap st)) permutation) code
                     (log (EvInvoke (length (heap st))) (alloc st).2)).2) as [Hh' Hj'].
  { apply exec_owned.
    - unfold owned_args, tracked. rewrite Forall_forall. intros t Ht.
      apply list_elem_of_fmap in Ht as (r & -> & Hr). cbn. by apply Hp.
    - split; [|done]. intros k r. rewrite read_alloc. apply Hh. }
  split.
  - intros k r. unfold read. rewrite scenario_heap. apply Hh'.
  - destruct (scenario_jobs V code permutation st) as (new & -> & Hnew).
    apply Forall_app. split; [done|].
    eapply Forall_impl; [exact Hnew|]. by intros j ->.
Qed.

End Ownership.

Section Isolation.

Lemma scenarios_owned V (code : Code) (k0 : nat) (perms dn todo : list (list Chosen))
    (st : State) :
  perms = dn ++ todo -> length (heap st) = k0 + length dn ->
  owned (belongs k0 perms) st ->
  owned (belongs k0 perms)
        (foldl (fun s permutation => scenario V code permutation s) st todo).
Proof.
  revert dn st. induction todo as [|permutation todo IH]; intros dn st Hp Hl Ho; [done|].
  cbn [foldl]. apply (IH (dn ++ [permutation])).
  - by rewrite <- app_assoc.
  - destruct (scenario_effect V code permutation st) as (_ & _ & _ & _ & _ & -> & _).
    rewrite length_app. cbn. lia.
  - apply scenario_owned; [|done]. intros r Hr. right. exists permutation.
    split; [|done]. rewrite Hl, Hp.
    replace (k0 + length dn - k0) with (length dn) by lia.
    by rewrite list_lookup_middle.
Qed.

Lemma test_correctness_owned (actions : list Action) V (code : Code) (st : State) :
  Forall (foreign (length (heap st))) (jobs st) ->
  owned (belongs (length (heap st)) (visited actions)) (test_correctness actions V code st).
Proof.
  intros Hf. unfold test_correctness, promise_then, promise_catch.
  rewrite all_permutations_nested, <- visited_nested.
  set (s1 := set_failures _ _).
  assert (owned (belongs (length (heap st)) (visited actions)) s1) as Ho.
  { split.
    - intros k r Hr. change (read k s1) with (read k st) in Hr.
      destruct (decide (k < length (heap st))) as [H|H]; [by left|].
      unfold read in Hr. rewrite lookup_ge_None_2 in Hr by lia. by apply elem_of_nil in Hr.
    - change (jobs s1) with (jobs st). eapply Forall_impl; [exact Hf|].
      intros [|args c] Hj; [done|]. cbn in *. unfold owned_args.
      eapply Forall_impl; [exact Hj|]. intros t Ht. by left. }
  pose proof (scenarios_owned V code (length (heap st)) (visited actions) []
                (visited actions) s1 eq_refl) as H.
  specialize (H ltac:(cbn; lia) Ho).
  set (s2 := foldl _ s1 _) in *. clearbody s2.
  assert (forall r s, owned (belongs (length (heap st)) (visited actions)) s ->
                      owned (belongs (length (heap st)) (visited actions)) (register r s)) as Hreg.
  { intros r s [Hh Hj]. split.
    - intros k x. unfold read.
      destruct (register_effect r s) as (_ & _ & _ & _ & _ & -> & _). apply Hh.
    - destruct (register_jobs r s) as (new & -> & Hnew). apply Forall_app. split; [done|].
      eapply Forall_impl; [exact Hnew|]. by intros j ->. }
  by do 2 apply Hreg.
Qed.

End Isolation.

(** ** Calls made in order *)

Section InOrder.

Lemma exec_elsewhere (code : Code) (args : list Tracked) (k : nat) (st : State) :
  Forall (fun t => sequence_ref t <> k) args ->
  read k (exec args code st).2 = read k st.
Proof.
  intros Ha. revert st.
  induction code as [v|e|i c IH|deferred _ c IH|update c IH]; intros st; cbn [exec];
    try done.
  - assert (read k (call_argument args i st).2 = read k st) as H.
    { unfold call_argument. destruct (args !! i) as [t|] eqn:E; [|done].
      rewrite read_invoke. apply read_push_ne.
      rewrite Forall_forall in Ha. intros Heq.
      by apply (Ha t (list_elem_of_lookup_2 _ _ _ E)). }
    destruct (call_argument args i st) as [produced st1]. by rewrite IH.
  - by rewrite IH.
  - by rewrite IH.
Qed.


Lemma scenario_elsewhere V (code : Code) (permutation : list Chosen) (k : nat) (st : State) :
  k < length (heap st) -> read k (scenario V code permutation st) = read k st.
Proof.
  intros Hk. unfold read at 1. rewrite scenario_heap. fold (read k
    (exec (tracked (length (heap st)) permutation) code
       (log (EvInvoke (length (heap st))) (alloc st).2)).2).
  rewrite exec_elsewhere, read_alloc; [done|].
  unfold tracked. rewrite Forall_forall. intros t Ht.
  apply list_elem_of_fmap in Ht as (r & -> & _). cbn. lia.
Qed.




Lemma validations_numbered V (k0 : nat) (dn : list (list Chosen)) (events : list Event) :
  validated V k0 dn events ->
  Forall (fun ev => exists j p s b,
            ev = EvValidate (k0 + j) p s (Returned b) /\ j < length dn) events.
Proof.
  induction 1 as [|dn events permutation snapshot verdict _ IH Hv]; [done|].
  apply Forall_app. split.
  - eapply Forall_impl; [exact IH|]. intros ev (j & p & s & b & -> & Hj).
    exists j, p, s, b. split; [done|]. rewrite length_app. lia.
  - constructor; [|done]. exists (length dn), permutation, snapshot, verdict.
    split; [done|]. rewrite length_app. cbn. lia.
Qed.

Lemma failures_of_passed (events : list Event) :
  Forall (fun ev => exists k p s, ev = EvValidate k p s (Returned true)) events ->
  failures_of events = [].
Proof.
  induction 1 as [|ev events (k & p & s & ->) _ IH]; [done|].
  unfold failures_of in *. by rewrite bind_cons, IH.
Qed.


End InOrder.

(** ** Passing *)

Section Verdict.

Lemma validations_all_true V (k0 : nat) (dn : list (list Chosen)) (events : list Event) :
  validated V k0 dn events -> failures_of events = [] ->
  forall j, j < length dn -> exists p s, EvValidate (k0 + j) p s (Returned true) ∈ events.
Proof.
  induction 1 as [|dn events permutation snapshot verdict _ IH Hv]; intros Hf j Hj.
  - cbn in Hj. lia.
  - rewrite failures_of_snoc in Hf. apply app_eq_nil in Hf as [Hf1 Hf2].
    rewrite length_app in Hj. cbn in Hj.
    destruct (decide (j < length dn)) as [Hlt|Hge].
    + destruct (IH Hf1 j Hlt) as (p & s & Hin). exists p, s. apply elem_of_app. by left.
    + assert (j = length dn) as -> by lia. exists permutation, snapshot.
      apply elem_of_app. right. destruct verdict; [|done].
      by apply list_elem_of_singleton.
Qed.

Lemma report_passed (fs : list string) : report fs = VReport true None <-> fs = [].
Proof. unfold report. by destruct fs. Qed.

End Verdict.

(** ** Patterns that make the same calls *)

Section Alike.

Local Ltac open_states st st' H :=
  destruct st as [? ? ? ? ? ? ? ? ?], st' as [? ? ? ? ? ? ? ? ?];
  destruct H as (Aw & Ah & Aq & Ac & As & Af & Aco & At & Asc); cbn in *; subst.

Lemma same_calls_refl (code : Code) : same_calls code code.
Proof.
  induction code as [v|e|i k IH|deferred IHd k IHk|update k IH].
  - by apply same_calls_end.
  - by apply same_calls_end.
  - by apply same_calls_call.
  - by apply same_calls_later.
  - by apply same_calls_own.
Qed.

Lemma alike_refl (st : State) : alike st st.
Proof.
  unfold alike. split_and!; try done.
  - apply Forall2_same_length_lookup_2; [done|]. intros i j j' H H'.
    rewrite H in H'. injection H' as <-. destruct j; constructor. apply same_calls_refl.
  - apply Forall2_same_length_lookup_2; [done|]. intros i r r' H H'.
    rewrite H in H'. injection H' as <-. done.
Qed.

Lemma call_argument_alike (args : list Tracked) (i : nat) (st st' : State) :
  alike st st' ->
  (call_argument args i st).1 = (call_argument args i st').1 /\
  alike (call_argument args i st).2 (call_argument args i st').2.
Proof.
  intros H. unfold call_argument. destruct (args !! i) as [t|]; [|done].
  unfold invoke, push. open_states st st' H.
  destruct (fn_call _ _) as [produced w]. done.
Qed.

Lemma exec_alike (code code' : Code) (args : list Tracked) (st st' : State) :
  same_calls code code' -> alike st st' ->
  alike (exec args code st).2 (exec args code' st').2.
Proof.
  intros H. revert st st'.
  induction H as [code code' He He'|i k k' _ IH|deferred deferred' k k' Hd _ _ IH
                 |update k k' _ IH];
    intros st st' Ha.
  - destruct code, code'; done.
  - cbn [exec]. destruct (call_argument_alike args i st st' Ha) as [Hp Ha'].
    destruct (call_argument args i st) as [produced st1],
             (call_argument args i st') as [produced' st1']. cbn [fst snd] in *.
    subst produced'. by apply IH.
  - cbn [exec]. apply IH. unfold enqueue. open_states st st' Ha.
    split_and!; try done. apply Forall2_app; [done|]. constructor; [by constructor|constructor].
  - cbn [exec]. assert (world st' = world st) as -> by (symmetry; apply Ha).
    apply IH. open_states st st' Ha. done.
Qed.

Lemma register_alike (r r' : Reaction) (st st' : State) :
  alike_reaction r r' -> alike st st' -> alike (register r st) (register r' st').
Proof.
  intros Hr H. unfold register, enqueue. open_states st st' H.
  destruct Ac as [|x y c c' Hxy Ac]; cbn; split_and!; try done; cbn.
  - apply Forall2_app; [done|]. constructor; [by constructor|constructor].
  - constructor; [done|constructor].
  - constructor; [done|]. apply Forall2_app; [done|]. constructor; [done|constructor].
Qed.

Lemma scenario_alike V (code code' : Code) (permutation : list Chosen) (st st' : State) :
  same_calls code code' -> alike st st' ->
  alike (scenario V code permutation st) (scenario V code' permutation st').
Proof.
  intros Hcode H. unfold scenario, alloc.
  assert (heap st = heap st') as Hheap by apply H. rewrite <- Hheap.
  assert (alike (log (EvInvoke (length (heap st))) (set_heap (heap st ++ [[]]) st))
                (log (EvInvoke (length (heap st))) (set_heap (heap st ++ [[]]) st'))) as Ha.
  { unfold log. open_states st st' H. done. }
  pose proof (exec_alike code code' (tracked (length (heap st)) permutation) _ _ Hcode Ha)
    as He.
  destruct (exec _ code _) as [completed st1], (exec _ code' _) as [completed' st1'].
  cbn [snd] in He. unfold promise_then.
  apply register_alike; [done|]. by apply register_alike.
Qed.

Lemma test_correctness_alike (actions : list Action) V (code code' : Code) (st : State) :
  same_calls code code' ->
  alike (test_correctness actions V code st) (test_correctness actions V code' st).
Proof.
  intros Hcode. unfold test_correctness, promise_then, promise_catch.
  do 2 (apply register_alike; [done|]). rewrite !all_permutations_nested.
  assert (forall ps s s', alike s s' ->
            alike (foldl (fun s p => scenario V code p s) s ps)
                  (foldl (fun s p => scenario V code' p s) s' ps)) as Hfold.
  { induction ps as [|p ps IH]; intros s s' Ha; [done|].
    cbn [foldl]. apply IH. by apply scenario_alike. }
  apply Hfold, alike_refl.
Qed.

Lemma react_alike (r r' : Reaction) (s : Settled) (st st' : State) :
  alike_reaction r r' -> alike st st' ->
  (react r s st).1 = (react r' s st').1 /\ alike (react r s st).2 (react r' s st').2.
Proof.
  intros [Hf' Hr'] H. unfold react. rewrite Hf', Hr'.
  assert (forall h v, (settle (run_handler h v st)).1 = (settle (run_handler h v st')).1 /\
                      alike (settle (run_handler h v st)).2 (settle (run_handler h v st')).2)
    as Hrun.
  { intros h v. unfold run_handler, read, log. destruct h as [x|k W p| |].
    - done.
    - open_states st st' H. destruct (is_valid_sequence _ W) as [[|]|e]; done.
    - open_states st st' H. done.
    - open_states st st' H. done. }
  destruct s as [v|e].
  - destruct (callable (onFulfilled r')); [apply Hrun|done].
  - destruct (callable (onRejected r')); [apply Hrun|done].
Qed.

Lemma reaction_alike (st st' : State) :
  alike st st' -> alike (run_job RunReaction st) (run_job RunReaction st').
Proof.
  intros Ha. unfold run_job.
  assert (Forall2 alike_reaction (chain st) (chain st')) as Hc by apply Ha.
  assert (settled st = settled st') as Hs by apply Ha.
  destruct Hc as [|r r' pending pending' Hr Hc]; [done|]. rewrite <- Hs.
  destruct (react_alike r r' (settled st) _ _ Hr Ha) as [H1 H2].
  destruct (react r _ st) as [s1 st1], (react r' _ st') as [s1' st1']. cbn [fst snd] in *.
  subst s1'. unfold enqueue. open_states st1 st1' H2.
  destruct Hc; cbn; split_and!; try done; cbn.
  - apply Forall2_app; [done|]. constructor; [by constructor|constructor].
  - by constructor.
Qed.

Lemma step_alike (st st' : State) : alike st st' -> alike (step st) (step st').
Proof.
  intros H. unfold step.
  assert (Forall2 alike_job (jobs st) (jobs st')) as Hq by apply H.
  assert (next st' = next st) as Hn.
  { unfold next. destruct H as (_ & _ & _ & _ & _ & _ & _ & _ & <-).
    by rewrite (Forall2_length _ _ _ Hq). }
  rewrite Hn. destruct (jobs st !! next st) as [job|] eqn:Hj.
  - destruct (Forall2_lookup_l _ _ _ _ _ Hq Hj) as (job' & -> & Hjob).
    assert (alike (taken st) (taken st')) as Ha.
    { unfold taken. rewrite Hn.
      destruct H as (? & ? & _ & ? & ? & ? & ? & ? & Hs). split_and!; try done.
      - cbn. by apply Forall2_delete.
      - cbn. by rewrite Hs. }
    destruct Hjob as [|args code code' Hcode]; [by apply reaction_alike|by apply exec_alike].
  - apply Forall2_length in Hq. apply lookup_ge_None in Hj.
    rewrite (proj2 (lookup_ge_None (jobs st') (next st))) by lia. done.
Qed.

Lemma run_alike (n : nat) (st st' : State) : alike st st' -> alike (run n st) (run n st').
Proof.
  revert st st'. induction n as [|n IH]; intros st st' H; [done|].
  cbn. by apply IH, step_alike.
Qed.

End Alike.

(** ** What a validation reads *)

Section NoAction.

Lemma snapshots_read (n : nat) (st : State) (k : nat) (p snapshot : list Chosen)
    (v : completion bool) :
  EvValidate k p snapshot v ∈ since st (run n st) ->
  exists m, m < n /\ snapshot = read k (run m st).
Proof.
  revert st; induction n as [|n IH]; intros st H; cbn [run] in H.
  - unfold since in H. rewrite drop_all in H. by apply elem_of_nil in H.
  - destruct (step_recording st) as (_ & new1 & Ht1 & Hn1).
    destruct (later_snapshots n (step st)) as ((new2 & Ht2) & _).
    rewrite (since_app st _ (new1 ++ new2)) in H by (by rewrite Ht2, Ht1, <- app_assoc).
    apply elem_of_app in H as [H|H].
    + rewrite Forall_forall in Hn1.
      destruct (Hn1 _ H) as (k' & p' & v' & [= -> -> -> ->]). exists 0. split; [lia|done].
    + destruct (IH (step st)) as (m & Hm & ->); [by rewrite (since_app _ _ new2)|].
      exists (S m). split; [lia|done].
Qed.

End NoAction.


(** ** Two runs side by side *)

Section TwoRuns.

Variables b1 b2 : nat.






End TwoRuns.


Section Outside.

Variable k0 : nat.

Lemma exec_outside (code : Code) (args : list Tracked) (st : State) :
  Forall (fun t => sequence_ref t < k0) args -> outside k0 st ->
  outside k0 (exec args code st).2 /\
  forall k, k0 <= k -> read k (exec args code st).2 = read k st.
Proof.
  intros Hargs Ho. split.
  - revert st Ho.
    induction code as [v|e|i c IH|deferred _ c IH|update c IH]; intros st Ho; cbn [exec];
      try done.
    + destruct (call_argument_frame args i st) as (_ & Hj & _).
      destruct (call_argument args i st) as [produced st1]. cbn [snd] in Hj.
      apply IH. unfold outside. by rewrite Hj.
    + apply IH. unfold outside, enqueue. cbn. apply Forall_app. split; [done|].
      by constructor.
    + by apply IH.
  - intros k Hk. apply exec_elsewhere. eapply Forall_impl; [exact Hargs|].
    intros t Ht. cbn in Ht. lia.
Qed.

Lemma reaction_outside (st : State) :
  outside k0 st ->
  outside k0 (run_job RunReaction st) /\ heap (run_job RunReaction st) = heap st.
Proof.
  unfold outside, run_job. intros Ho.
  destruct (chain st) as [|r pending]; [done|].
  destruct (react_frame r (settled st) st) as (Hh & _ & Hjobs & _).
  destruct (react r (settled st) st) as [s st1]. cbn in *.
  destruct pending; cbn; rewrite Hjobs; (split; [|done]); [done|].
  apply Forall_app. split; [done|by constructor].
Qed.

Lemma step_outside (st : State) :
  outside k0 st ->
  outside k0 (step st) /\ forall k, k0 <= k -> read k (step st) = read k st.
Proof.
  intros Ho. unfold step. destruct (jobs st !! next st) as [job|] eqn:Hj; [|done].
  assert (outside k0 (taken st)) as Ho' by (unfold outside, taken; cbn; by apply Forall_delete).
  destruct job as [|args code].
  - destruct (reaction_outside (taken st) Ho') as [H1 H2]. split; [done|].
    intros k _. unfold read. by rewrite H2.
  - apply (exec_outside code args (taken st)); [|done].
    unfold outside in Ho. rewrite Forall_forall in Ho.
    exact (Ho _ (list_elem_of_lookup_2 _ _ _ Hj)).
Qed.

Lemma run_outside (n : nat) (st : State) :
  outside k0 st ->
  outside k0 (run n st) /\ forall k, k0 <= k -> read k (run n st) = read k st.
Proof.
  revert st; induction n as [|n IH]; intros st Ho; [done|]. cbn.
  destruct (step_outside st Ho) as [Ho' Hr]. destruct (IH _ Ho') as [Ho'' Hr'].
  split; [done|]. intros k Hk. by rewrite Hr', Hr.
Qed.

End Outside.

Lemma register_outside (k0 : nat) (r : Reaction) (st : State) :
  outside k0 st -> outside k0 (register r st).
Proof.
  unfold outside. intros Ho. destruct (register_jobs r st) as (new & -> & Hnew).
  apply Forall_app. split; [done|]. eapply Forall_impl; [exact Hnew|]. by intros j ->.
Qed.

(** A pattern that leaves nothing for later leaves no job that writes to
    the sequences of the run. *)
Lemma test_correctness_outside (actions : list Action) V (code : Code) (st : State) :
  synchronous code -> Forall (foreign (length (heap st))) (jobs st) ->
  outside (length (heap st)) (test_correctness actions V code st).
Proof.
  intros Hs Hf. unfold test_correctness, promise_then, promise_catch.
  do 2 apply register_outside. rewrite all_permutations_nested.
  set (s1 := set_failures _ _).
  assert (outside (length (heap st)) s1) as Ho.
  { unfold outside. change (jobs s1) with (jobs st). eapply Forall_impl; [exact Hf|].
    by intros [|args c] Hj. }
  clearbody s1. revert s1 Ho.
  induction (nested actions) as [|p ps IH]; intros s1 Ho; [done|].
  cbn [foldl]. apply IH. unfold outside. cbn beta.
  destruct (scenario_jobs V code p s1) as (new & -> & Hnew).
  rewrite exec_synchronous by done. apply Forall_app. split; [done|].
  eapply Forall_impl; [exact Hnew|]. by intros j ->.
Qed.

Section Outcome.

Variable V : list (list (list TplItem)).



End Outcome.

(** ** From the arrival of a scenario to its validation *)

Section Arrival.

Variable V : list (list (list TplItem)).

Lemma arrival_next (actions : list Action) (code : Code) (j : nat)
    (permutation : list Chosen) (st : State) :
  visited actions !! j = Some permutation ->
  arrival actions V code (S j) st = scenario V code permutation (arrival actions V code j st).
Proof.
  intros Hj. unfold arrival. rewrite (take_S_r _ _ _ Hj), foldl_app. done.
Qed.

Lemma arrival_heap (actions : list Action) (code : Code) (j : nat) (st : State) :
  j <= length (visited actions) ->
  length (heap (arrival actions V code j st)) = length (heap st) + j.
Proof.
  intros Hj. unfold arrival.
  destruct (scenarios_effect V code (take j (visited actions))
              (set_failures [] (set_settled (Fulfilled VUndefined) (set_chain [] st))))
    as (_ & _ & _ & _ & _ & -> & _).
  rewrite length_take. cbn. lia.
Qed.

(** The rest of [test_correctness], from the arrival of a scenario on. *)
Lemma test_correctness_from (actions : list Action) (code : Code) (j : nat) (st : State) :
  test_correctness actions V code st
  = promise_catch LogAndReturn (promise_then Report
      (foldl (fun s permutation => scenario V code permutation s)
             (arrival actions V code j st) (drop j (visited actions)))).
Proof.
  unfold test_correctness, arrival. cbn zeta.
  rewrite all_permutations_nested, <- foldl_app, take_drop, visited_nested. done.
Qed.

Lemma scenario_prefix (code : Code) (permutation : list Chosen) (k : nat) (st : State) :
  read k st `prefix_of` read k (scenario V code permutation st).
Proof.
  unfold read at 2. rewrite scenario_heap.
  destruct (exec_frame code (tracked (length (heap st)) permutation)
              (log (EvInvoke (length (heap st))) (alloc st).2)) as (_ & _ & _ & H).
  specialize (H k). by rewrite read_alloc in H.
Qed.

Lemma scenarios_prefix (code : Code) (perms : list (list Chosen)) (k : nat) (st : State) :
  read k st `prefix_of` read k (foldl (fun s p => scenario V code p s) st perms).
Proof.
  revert st; induction perms as [|p perms IH]; intros st; [done|].
  cbn [foldl]. etrans; [apply scenario_prefix|apply IH].
Qed.

Lemma scenarios_elsewhere (code : Code) (perms : list (list Chosen)) (k : nat) (st : State) :
  k < length (heap st) ->
  read k (foldl (fun s p => scenario V code p s) st perms) = read k st.
Proof.
  revert st; induction perms as [|p perms IH]; intros st Hk; [done|].
  cbn [foldl]. rewrite IH.
  - by apply scenario_elsewhere.
  - destruct (scenario_effect V code p st) as (_ & _ & _ & _ & _ & -> & _). lia.
Qed.

Lemma read_register (r : Reaction) (k : nat) (st : State) :
  read k (register r st) = read k st.
Proof.
  unfold read. by destruct (register_effect r st) as (_ & _ & _ & _ & _ & -> & _).
Qed.

(** A scenario that was validated has its event, with the message in
    [failures] when the verdict is [false]. *)
Lemma validated_lookup (k0 : nat) (dn : list (list Chosen)) (events : list Event)
    (j : nat) (p : list Chosen) :
  validated V k0 dn events -> dn !! j = Some p ->
  exists snapshot verdict,
    EvValidate (k0 + j) p snapshot (Returned verdict) ∈ events /\
    is_valid_sequence snapshot V = Returned verdict /\
    (verdict = false -> failure_message p snapshot ∈ failures_of events).
Proof.
  induction 1 as [|dn events permutation snapshot verdict _ IH Hv]; intros Hj; [done|].
  destruct (decide (j < length dn)) as [Hlt|Hge].
  - rewrite lookup_app_l in Hj by done.
    destruct (IH Hj) as (s & b & Hin & Hb & Hf). exists s, b. split_and!; [|done|].
    + apply elem_of_app. by left.
    + intros Hfalse. rewrite failures_of_snoc. apply elem_of_app. left. by apply Hf.
  - rewrite lookup_app_r in Hj by lia.
    destruct (j - length dn) as [|?] eqn:E; [|done]. injection Hj as <-.
    assert (j = length dn) as -> by lia.
    exists snapshot, verdict. split_and!; [|done|].
    + apply elem_of_app. right. by left.
    + intros ->. rewrite failures_of_snoc. apply elem_of_app. right. by left.
Qed.

End Arrival.

(** ** The report *)

Section Report.

Lemma join_separated (sep : string) (parts : list string) :
  join sep parts = Spec.separated sep parts.
Proof.
  unfold join. induction parts as [|part rest IH]; [done|].
  destruct rest as [|next rest]; [done|].
  change (part +:+ sep +:+ String.concat sep (next :: rest)
          = part +:+ sep +:+ Spec.separated sep (next :: rest)).
  by rewrite IH.
Qed.

Lemma failure_message_entry (permutation sequence : list Chosen) :
  failure_message permutation sequence = Spec.entry permutation sequence.
Proof.
  unfold failure_message, describe_permutation, Spec.entry. by rewrite !join_separated.
Qed.

Lemma failures_of_entries (events : list Event) : failures_of events = Spec.entries events.
Proof.
  unfold failures_of, Spec.entries. induction events as [|ev events IH]; [done|].
  rewrite !bind_cons, IH.
  destruct ev as [|k p s [[|]|e]]; cbn [app]; try done.
Qed.

Lemma report_separated (failed : list string) :
  report failed
  = match failed with
    | [] => VReport true None
    | _ => VReport false (Some (Spec.separated Spec.newline failed))
    end.
Proof. unfold report. destruct failed; [done|]. cbn. by rewrite join_separated. Qed.

End Report.


(** * The claims *)

Lemma invoke_recorded (t : Tracked) (st : State) :
  sequence_ref t < length (heap st) ->
  let produced :=
    fn_call (outcome (tracked_action t))
            (world (push (sequence_ref t) (tracked_action t) st)) in
  let st' := (invoke t st).2 in
  (invoke t st).1 = produced.1 /\
  world st' = produced.2 /\
  read (sequence_ref t) st' = read (sequence_ref t) st ++ [tracked_action t] /\
  (forall k, k <> sequence_ref t -> read k st' = read k st) /\
  harness st' = harness st /\
  forall n permutation snapshot verdict,
    EvValidate (sequence_ref t) permutation snapshot verdict ∈ since st' (run n st') ->
    read (sequence_ref t) st ++ [tracked_action t] `prefix_of` snapshot.
Proof.
  intros Hlt. cbn zeta.
  assert (read (sequence_ref t) (invoke t st).2
          = read (sequence_ref t) st ++ [tracked_action t]) as Hread.
  { unfold invoke. destruct (fn_call _ _) as [c w]. unfold read. cbn.
    rewrite list_lookup_alter_eq.
    destruct (lookup_lt_is_Some_2 _ _ Hlt) as [s ->]. done. }
  split_and!.
  - unfold invoke. by destruct (fn_call _ _).
  - unfold invoke. by destruct (fn_call _ _).
  - done.
  - intros k Hk. unfold invoke. destruct (fn_call _ _) as [c w]. unfold read. cbn.
    by rewrite list_lookup_alter_ne.
  - apply invoke_frame.
  - intros n permutation snapshot verdict H. rewrite <- Hread.
    by apply (later_snapshots n _) in H.
Qed.

(** C3. Calling the [i]-th argument built for a scenario appends the record
    of the [i]-th action of the permutation to the sequence of the scenario
    and then runs the chosen outcome producer, handing back what it
    produces, be it a value, a promise or an exception; the record is
    appended whatever the producer does, nothing else of the heap or of the
    harness's variables is touched, and every validation of that sequence
    from then on reads the record. *)
Theorem tracked_call_recorded (sequence : nat) (permutation : list Chosen)
    (i : nat) (action : Chosen) (st : State) :
  permutation !! i = Some action ->
  sequence < length (heap st) ->
  let produced := fn_call (outcome action) (world (push sequence action st)) in
  let called := call_argument (tracked sequence permutation) i st in
  called.1 = produced.1 /\
  world called.2 = produced.2 /\
  read sequence called.2 = read sequence st ++ [action] /\
  (forall k, k <> sequence -> read k called.2 = read k st) /\
  harness called.2 = harness st /\
  forall n p snapshot verdict,
    EvValidate sequence p snapshot verdict ∈ since called.2 (run n called.2) ->
    read sequence st ++ [action] `prefix_of` snapshot.
Proof.
  intros Hi Hlt. cbn zeta. unfold call_argument, tracked.
  rewrite list_lookup_fmap, Hi. cbn [fmap option_fmap option_map].
  exact (invoke_recorded {| sequence_ref := sequence; tracked_action := action |} st Hlt).
Qed.

(** C4, as the code has it.  The pattern is invoked for every scenario, in
    the order of enumeration, while [test_correctness] runs, before any
    validation; the validations follow, one at a time, in the same order. *)
Theorem scenarios_invoked_then_validated (actions : list Action)
    (valid_sequences : list (list (list TplItem))) (pattern_to_test : Code) (st : State) :
  let s0 := test_correctness actions valid_sequences pattern_to_test st in
  let k0 := length (heap st) in
  let scenarios := length (visited actions) in
  mark <$> since st s0 = Invoked <$> seq k0 scenarios /\
  forall n, exists m, m <= scenarios /\
    mark <$> since st (run n s0)
    = (Invoked <$> seq k0 scenarios) ++ (Validated <$> seq k0 m).
Proof.
  cbn zeta. split; [|intros n; apply trace_shape].
  destruct (sync_phase valid_sequences actions pattern_to_test st) as (_ & _ & _ & _ & H & _).
  erewrite since_app by exact H. by rewrite <- list_fmap_compose.
Qed.

(** C5. When the pattern throws while it is invoked for a scenario, the
    exception is dropped and the scenario goes on: the two reactions are
    registered on the state that the pattern left and the next scenario
    begins there.  Once the returned promise is settled, and unless a
    validation threw, the scenario has been validated, on a sequence that
    begins with what the pattern recorded before it threw, and is that very
    sequence when the pattern leaves nothing for later; the verdict is that
    of [is_valid_sequence], and the scenario is in [failures] when it is
    [false].  The run is that of the pattern that returns [null] where this
    one throws. *)
Theorem synchronous_throw_is_dropped (actions : list Action)
    (valid_sequences : list (list (list TplItem))) (pattern_to_test : Code)
    (st st' : State) (j : nat) (permutation : list Chosen) (e : jsval) (n : nat) :
  let sequence := length (heap st) + j in
  let begun := arrival actions valid_sequences pattern_to_test j st in
  let s := run n (test_correctness actions valid_sequences pattern_to_test st) in
  visited actions !! j = Some permutation ->
  exec (tracked sequence permutation) pattern_to_test
       (log (EvInvoke sequence) (alloc begun).2) = (Threw e, st') ->
  arrival actions valid_sequences pattern_to_test (S j) st
  = promise_then (Validate sequence valid_sequences permutation)
      (promise_then (NotCallable (wait_for VNull)) st') /\
  (chain s = [] -> faults_of (since st s) = [] ->
   exists snapshot verdict,
     EvValidate sequence permutation snapshot (Returned verdict) ∈ since st s /\
     read sequence st' `prefix_of` snapshot /\
     (synchronous pattern_to_test -> Forall (foreign (length (heap st))) (jobs st) ->
      snapshot = read sequence st') /\
     is_valid_sequence snapshot valid_sequences = Returned verdict /\
     (verdict = false -> failure_message permutation snapshot ∈ failures s)) /\
  test_correctness actions valid_sequences pattern_to_test st
  = test_correctness actions valid_sequences (returning_null pattern_to_test) st.
Proof.
  intros sequence begun s Hj Hexec.
  pose proof (lookup_lt_Some _ _ _ Hj) as Hlt.
  assert (length (heap begun) = sequence) as Hlen
    by (unfold begun, sequence; apply arrival_heap; lia).
  assert (arrival actions valid_sequences pattern_to_test (S j) st
          = promise_then (Validate sequence valid_sequences permutation)
              (promise_then (NotCallable (wait_for VNull)) st')) as Hnext.
  { rewrite (arrival_next _ _ _ _ _ _ Hj). fold begun.
    unfold scenario, alloc in *. cbn [snd] in Hexec. rewrite Hlen. by rewrite Hexec. }
  split_and!; [done| |].
  - intros Hc Hfaults.
    set (s0 := test_correctness actions valid_sequences pattern_to_test st) in *.
    destruct (sync_phase valid_sequences actions pattern_to_test st) as (_ & _ & _ & _ & Ht & _).
    fold s0 in Ht.
    destruct (later_snapshots n s0) as ((new & Hnew) & Hlater).
    assert (since st (run n s0)
            = invocations (length (heap st)) (length (visited actions)) ++ new) as Hsince.
    { apply since_app. by rewrite Hnew, Ht, <- app_assoc. }
    assert (forall k, read k st' `prefix_of` read k s0
                      /\ (k < length (heap st') -> read k s0 = read k st')) as Hst'.
    { intros k. unfold s0.
      rewrite (test_correctness_from valid_sequences actions pattern_to_test (S j) st).
      rewrite Hnext. unfold promise_catch, promise_then. rewrite !read_register. split.
      - etrans; [|apply scenarios_prefix]. by rewrite !read_register.
      - intros Hk. rewrite scenarios_elsewhere; [by rewrite !read_register|].
        by destruct (register_effect (thenR (Validate sequence valid_sequences permutation))
                   (register (thenR (NotCallable (wait_for VNull))) st'))
          as (_ & _ & _ & _ & _ & -> & _);
        destruct (register_effect (thenR (NotCallable (wait_for VNull))) st')
          as (_ & _ & _ & _ & _ & -> & _). }
    destruct (at_rest valid_sequences actions pattern_to_test st n Hc)
      as [(events & Hs & Hval & Hse & Hfa & _)
         |(dn & p & todo & events & snapshot & e' & _ & Hs & _)];
      fold s0 in Hs; fold s in Hs.
    + fold s0 in Hfa. fold s in Hfa. unfold s in Hs. rewrite Hsince in Hs.
      apply app_inv_head in Hs. subst new.
      destruct (validated_lookup valid_sequences _ _ _ j permutation Hval Hj)
        as (snapshot & verdict & Hin & Hv & Hf).
      exists snapshot, verdict. split_and!.
      * unfold s. rewrite Hsince. apply elem_of_app. by right.
      * etrans; [apply Hst'|]. apply (Hlater _ permutation snapshot (Returned verdict)).
        by rewrite (since_app s0 _ events).
      * intros Hsync Hforeign.
        pose proof (test_correctness_outside actions valid_sequences pattern_to_test st
                      Hsync Hforeign) as Ho. fold s0 in Ho.
        destruct (snapshots_read n s0 sequence permutation snapshot (Returned verdict))
          as (m & _ & ->); [by rewrite (since_app s0 _ events)|].
        destruct (run_outside _ m s0 Ho) as [_ Hr]. rewrite Hr by (unfold sequence; lia).
        apply Hst'.
        destruct (exec_frame pattern_to_test (tracked sequence permutation)
                    (log (EvInvoke sequence) (alloc begun).2)) as (_ & _ & Hh & _).
        rewrite Hexec in Hh. cbn [snd] in Hh. rewrite Hh. unfold alloc. cbn.
        rewrite length_app, Hlen. cbn. lia.
      * done.
      * rewrite Hfa. exact Hf.
    + fold s in Hfaults. rewrite Hs, !faults_of_app in Hfaults.
      apply app_eq_nil in Hfaults as [_ Hfaults].
      apply app_eq_nil in Hfaults as [_ Hfaults]. done.
  - unfold test_correctness. cbn zeta.
    rewrite !all_permutations_nested. do 2 f_equal.
    apply foldl_pointwise. intros s' p. by rewrite scenario_returning_null.
Qed.

(** C6. Once every scenario is processed the returned promise is settled.
    When no validation threw, every scenario was validated, in the order of
    enumeration, each with the verdict of [is_valid_sequence]; [failures]
    holds the entries of the scenarios judged invalid, in that order, an
    entry naming the outcome chosen for each action, one per line, and the
    names of the actions called, separated by commas; and the promise is
    fulfilled with [{passed: true}] when there is no failure and otherwise
    with [{passed: false, description}], the description being the entries
    joined by line feeds. *)
Theorem test_correctness_report (actions : list Action)
    (valid_sequences : list (list (list TplItem))) (pattern_to_test : Code) (st : State) :
  exists n0, forall n, n0 <= n ->
    let s := run n (test_correctness actions valid_sequences pattern_to_test st) in
    let events := since st s in
    chain s = [] /\
    (faults_of events = [] ->
       validated_of events = visited actions /\
       judged_by valid_sequences events /\
       failures s = Spec.entries events /\
       (Spec.entries events = [] -> resolution s = Some (Fulfilled (VReport true None))) /\
       (Spec.entries events <> [] ->
        resolution s
        = Some (Fulfilled (VReport false
                  (Some (Spec.separated Spec.newline (Spec.entries events))))))).
Proof.
  destruct (resolves valid_sequences actions pattern_to_test st) as [n0 Hn0].
  exists n0. intros n Hn. cbn zeta. specialize (Hn0 n Hn).
  split; [done|]. intros Hfaults.
  destruct (at_rest valid_sequences actions pattern_to_test st n Hn0)
    as [(events & Hs & Hval & Hse & Hfa & Hco)
       |(dn & permutation & todo & events & snapshot & e & _ & Hs & _)].
  - destruct (validated_summary _ _ _ _ Hval) as (Hv1 & Hv2 & _).
    destruct (invocations_silent (length (heap st)) (length (visited actions)))
      as (I1 & I2 & I3).
    assert (failures (run n (test_correctness actions valid_sequences pattern_to_test st))
            = Spec.entries
                (since st (run n (test_correctness actions valid_sequences
                                    pattern_to_test st)))) as Hfailures.
    { by rewrite <- failures_of_entries, Hs, Hfa, failures_of_app, I1. }
    split_and!.
    + by rewrite Hs, validated_of_app, I2, Hv1.
    + rewrite Hs. apply Forall_app. split;
        [apply invocations_verdicts|by eapply validated_verdicts].
    + done.
    + intros E. unfold resolution. by rewrite Hn0, Hse, report_separated, Hfailures, E.
    + intros E. unfold resolution. rewrite Hn0, Hse, report_separated, Hfailures.
      by destruct (Spec.entries _).
  - rewrite Hs in Hfaults.
    rewrite !faults_of_app in Hfaults. apply app_eq_nil in Hfaults as [_ Hfaults].
    apply app_eq_nil in Hfaults as [_ Hfaults]. done.
Qed.

(** C7. When a validation throws, the exception skips the remaining
    validations and the report, is caught by the final [catch], logged, and
    the returned promise is fulfilled with that very value. *)
Theorem engine_fault_is_the_result (actions : list Action)
    (valid_sequences : list (list (list TplItem))) (pattern_to_test : Code)
    (st : State) (n : nat) (e : jsval) :
  let s := run n (test_correctness actions valid_sequences pattern_to_test st) in
  chain s = [] ->
  e ∈ faults_of (since st s) ->
  resolution s = Some (Fulfilled e) /\
  console s = console st ++ [e] /\
  faults_of (since st s) = [e].
Proof.
  intros s Hc He.
  destruct (at_rest valid_sequences actions pattern_to_test st n Hc)
    as [(events & Hs & Hval & Hse & Hfa & Hco)
       |(done & permutation & todo & events & snapshot & e' & _ & Hs & Hval & _ & Hse & _ & Hco)].
  all: fold s in Hs; rewrite Hs in *.
  all: destruct (validated_summary _ _ _ _ Hval) as (_ & Hv2 & _).
  all: destruct (invocations_silent (length (heap st)) (length (visited actions)))
      as (_ & _ & I3).
  all: rewrite ?faults_of_app, ?I3, ?Hv2 in *; cbn in He.
  - by apply elem_of_nil in He.
  - apply list_elem_of_singleton in He as ->.
    split_and!; [|done|done]. unfold resolution. fold s in Hse. by rewrite Hc, Hse.
Qed.

(** C8. With an action that has no outcome there is no permutation: the
    pattern is never invoked, nothing is validated, and the returned promise
    is fulfilled with [{passed: true}]. *)
Theorem no_outcome_no_scenario (actions : list Action)
    (valid_sequences : list (list (list TplItem))) (pattern_to_test : Code) (st : State) :
  (exists a, a ∈ actions /\ action_outcomes a = []) ->
  visited actions = [] /\
  heap (test_correctness actions valid_sequences pattern_to_test st) = heap st /\
  (forall n, since st (run n (test_correctness actions valid_sequences pattern_to_test st)) = []) /\
  exists n0, forall n, n0 <= n ->
    resolution (run n (test_correctness actions valid_sequences pattern_to_test st))
    = Some (Fulfilled (VReport true None)).
Proof.
  intros (a & Ha & Hout).
  assert (visited actions = []) as Hv.
  { apply visited_no_outcome. unfold outcome_counts.
    apply list_elem_of_fmap. exists a. by rewrite Hout. }
  split_and!; [done| | |].
  - unfold test_correctness. rewrite all_permutations_nested, <- visited_nested, Hv. done.
  - intros n. destruct (trace_shape valid_sequences actions pattern_to_test st n)
      as (m & Hm & Hmarks).
    rewrite Hv in *. cbn in Hm. assert (m = 0) as -> by lia. cbn in Hmarks.
    by apply fmap_nil_inv in Hmarks.
  - destruct (resolves valid_sequences actions pattern_to_test st) as [n0 Hn0].
    exists n0. intros n Hn. specialize (Hn0 n Hn).
    destruct (at_rest valid_sequences actions pattern_to_test st n Hn0)
      as [(events & Hs & Hval & Hse & Hfa & Hco)
         |(done & permutation & todo & events & snapshot & e' & Hp & _)].
    + rewrite Hv in Hval. destruct (validated_summary _ _ _ _ Hval) as (_ & _ & Hm & _).
      cbn in Hm. apply fmap_nil_inv in Hm as ->.
      unfold resolution. rewrite Hn0, Hse, Hfa. done.
    + rewrite Hv in Hp. by destruct done.
Qed.


(** C10. With no template no sequence is valid, the empty one included, so
    as soon as there is one scenario the returned promise is fulfilled with
    [{passed: false, ...}], whatever the pattern under test does. *)
Theorem no_template_no_pass (actions : list Action) (pattern_to_test : Code) (st : State) :
  (forall sequence, is_valid_sequence sequence [] = Returned false) /\
  (visited actions <> [] ->
   exists n0, forall n, n0 <= n -> exists description,
     resolution (run n (test_correctness actions [] pattern_to_test st))
     = Some (Fulfilled (VReport false (Some description)))).
Proof.
  split; [done|]. intros Hne.
  destruct (resolves [] actions pattern_to_test st) as [n0 Hn0].
  exists n0. intros n Hn. specialize (Hn0 n Hn).
  destruct (at_rest [] actions pattern_to_test st n Hn0)
    as [(events & Hs & Hval & Hse & Hfa & Hco)
       |(dn & permutation & todo & events & snapshot & e' & _ & _ & _ & Hthrow & _)];
    [|discriminate Hthrow].
  apply no_template_failures in Hval.
  unfold resolution. rewrite Hn0, Hse, Hfa. unfold report.
  destruct (failures_of events) as [|f fs]; [|by eexists].
  destruct (visited actions); done.
Qed.


(** * The claims on examples *)

Import Examples.

(** Scenario 1 of the specification: with the template [[[A, ok], [B]]] the
    permutation in which [A] fails leaves the sequence [A], which no template
    matches. *)
Example a_fails_then_no_b :
  resolution (run 20 (test_correctness [A; B] [template a_ok_then_b] a_then_b (boot ∅)))
  = Some (Fulfilled (VReport false (Some
      (failure_message [pick A fail; pick B ok'] [pick A fail])))).
Proof. vm_compute. reflexivity. Qed.

Example a_fails_message :
  failure_message [pick A fail; pick B ok'] [pick A fail]
  = "Pattern failed validation" +:+ LF +:+
    "  Scenario: A -> fail" +:+ LF +:+
    "            B -> ok" +:+ LF +:+
    "  Sequence: A".
Proof. vm_compute. reflexivity. Qed.

(** Scenario 2: with [[[A, fail]]] as a second template the pattern passes. *)
Example a_fails_allowed :
  resolution (run 20 (test_correctness [A; B] [template a_ok_then_b; template a_fail]
                        a_then_b (boot ∅)))
  = Some (Fulfilled (VReport true None)).
Proof. vm_compute. reflexivity. Qed.

(** The same when [b] is called from a later job. *)
Example b_called_later :
  resolution (run 20 (test_correctness [A; B] [template a_ok_then_b; template a_fail]
                        a_then_later_b (boot ∅)))
  = Some (Fulfilled (VReport true None)).
Proof. vm_compute. reflexivity. Qed.

(** [then] is given the promise built by [wait_for], not a function, and
    ignores it: the validation does not wait for the promise that the
    pattern returned.  Here the pattern calls [c] and then [b], as the
    template asks, but the sequence is validated before [b] is called. *)
Example validation_does_not_wait :
  resolution (run 30 (test_correctness [C; B] [template c_then_b]
                        c_then_much_later_b (boot ∅)))
  = Some (Fulfilled (VReport false (Some
      (failure_message [pick C ok; pick B ok'] [pick C ok])))) /\
  read 0 (run 30 (test_correctness [C; B] [template c_then_b]
                    c_then_much_later_b (boot ∅)))
  = [pick C ok; pick B ok'].
Proof. vm_compute. split; reflexivity. Qed.

(** The order of the jobs decides.  [(c, b) => c().then(b)] passes when the
    call of [b] runs before the reactions of the harness, as it does when
    the pattern defers on the queue of the harness's promises; it fails when
    the reactions run first. *)
Example order_of_jobs_decides :
  resolution (run 20 (test_correctness [C; B] [template c_then_b] a_then_later_b (boot ∅)))
  = Some (Fulfilled (VReport true None)) /\
  resolution (run 20 (test_correctness [C; B] [template c_then_b] a_then_later_b
                        (set_schedule [1; 1] (boot ∅))))
  = Some (Fulfilled (VReport false (Some
      (failure_message [pick C ok; pick B ok'] [pick C ok])))).
Proof. vm_compute. split; reflexivity. Qed.

(** Scenario 3: no action, the empty template. *)
Example no_action :
  resolution (run 20 (test_correctness [] [[]] (Return VUndefined) (boot ∅)))
  = Some (Fulfilled (VReport true None)).
Proof. vm_compute. reflexivity. Qed.

(** Scenario 5: the pattern throws before calling anything. *)
Example throws_at_once :
  resolution (run 20 (test_correctness [A; B] [[]] (Throw (VError "no")) (boot ∅)))
  = Some (Fulfilled (VReport true None)).
Proof. vm_compute. reflexivity. Qed.

(** Three actions: the last one varies fastest. *)
Example three_actions :
  visited [A; B; A]
  = [ [pick A ok; pick B ok'; pick A ok]; [pick A ok; pick B ok'; pick A fail];
      [pick A fail; pick B ok'; pick A ok]; [pick A fail; pick B ok'; pick A fail] ].
Proof. reflexivity. Qed.

(** Two outcome producers of the same name and behaviour are two
    references. *)
Example identity_not_equality :
  is_valid_sequence [pick B ok'] [template [ {| constrained := B; allowed := [ok] |} ]]
  = Returned false.
Proof. reflexivity. Qed.

(** An outcome producer that depends on the caller's variables: the second
    run does not report what the first did. *)
Example once_is_not_deterministic :
  let first := run 20 (test_correctness [O; B] [template o_then_b] a_then_b (boot ∅)) in
  resolution first = Some (Fulfilled (VReport true None)) /\
  resolution (run 20 (test_correctness [O; B] [template o_then_b] a_then_b first))
  = Some (Fulfilled (VReport false (Some
      (failure_message [pick O once; pick B ok'] [pick O once])))).
Proof. vm_compute. split; reflexivity. Qed.

(** *** Witnesses *)

Lemma tracked_call_recorded_witness :
  (call_argument (tracked 0 [pick A fail; pick B ok']) 0 (alloc (boot ∅)).2).1
  = Threw (VError "failed") /\
  read 0 (call_argument (tracked 0 [pick A fail; pick B ok']) 0 (alloc (boot ∅)).2).2
  = [pick A fail].
Proof.
  assert (0 < length (heap (alloc (boot ∅)).2)) as H by (vm_compute; lia).
  destruct (tracked_call_recorded 0 [pick A fail; pick B ok'] 0 (pick A fail)
              (alloc (boot ∅)).2 eq_refl H) as (H1 & _ & H3 & _).
  split; [rewrite H1|rewrite H3]; reflexivity.
Defined.

(** [only_a] throws what [a] throws: the scenario in which [a] fails is
    validated on the call of [a], which the template [[[A, fail]]] allows. *)
Lemma synchronous_throw_is_dropped_witness :
  exists snapshot verdict,
    EvValidate 1 [pick A fail] snapshot (Returned verdict)
      ∈ since (boot ∅) (run 20 (test_correctness [A] [template a_fail] only_a (boot ∅))) /\
    snapshot = [pick A fail] /\
    is_valid_sequence snapshot [template a_fail] = Returned verdict.
Proof.
  destruct (synchronous_throw_is_dropped [A] [template a_fail] only_a (boot ∅)
              (exec (tracked 1 [pick A fail]) only_a
                 (log (EvInvoke 1)
                    (alloc (arrival [A] [template a_fail] only_a 1 (boot ∅))).2)).2
              1 [pick A fail] (VError "failed") 20 eq_refl eq_refl)
    as (_ & H & _).
  destruct H as (snapshot & verdict & H1 & _ & H3 & H4 & _).
  - vm_compute. reflexivity.
  - vm_compute. reflexivity.
  - exists snapshot, verdict. split_and!; [exact H1| |exact H4].
    rewrite H3.
    + vm_compute. reflexivity.
    + constructor. intros [v|e]; constructor.
    + constructor.
Defined.

(** The scenario in which [a] fails is judged invalid: the description. *)
Lemma test_correctness_report_witness :
  exists n,
    resolution (run n (test_correctness [A; B] [template a_ok_then_b] a_then_b (boot ∅)))
    = Some (Fulfilled (VReport false (Some
        "Pattern failed validation
  Scenario: A -> fail
            B -> ok
  Sequence: A"))).
Proof.
  destruct (test_correctness_report [A; B] [template a_ok_then_b] a_then_b (boot ∅))
    as [n0 H].
  exists (n0 `max` 20). destruct (H (n0 `max` 20)) as [_ H']; [lia|].
  assert (chain (run 20 (test_correctness [A; B] [template a_ok_then_b] a_then_b (boot ∅)))
          = []) as Hc by (vm_compute; reflexivity).
  assert (trace (run (n0 `max` 20)
                   (test_correctness [A; B] [template a_ok_then_b] a_then_b (boot ∅)))
          = trace (run 20
                   (test_correctness [A; B] [template a_ok_then_b] a_then_b (boot ∅))))
    as Ht.
  { replace (n0 `max` 20) with (20 + (n0 `max` 20 - 20)) by lia. rewrite run_add.
    pose proof (run_settled (n0 `max` 20 - 20) _ Hc) as Hh.
    by apply harness_eq in Hh as (_ & _ & _ & _ & ->). }
  cbn zeta in H'. unfold since in H'. rewrite Ht in H'.
  destruct H' as (_ & _ & _ & _ & H'); [vm_compute; reflexivity|].
  rewrite H' by (vm_compute; discriminate). vm_compute. reflexivity.
Defined.

Lemma engine_fault_is_the_result_witness :
  resolution (run 20 (test_correctness [A] [empty_entry] only_a (boot ∅)))
  = Some (Fulfilled type_error) /\
  console (run 20 (test_correctness [A] [empty_entry] only_a (boot ∅))) = [type_error].
Proof.
  destruct (engine_fault_is_the_result [A] [empty_entry] only_a (boot ∅) 20 type_error)
    as (H1 & H2 & _).
  - vm_compute. reflexivity.
  - vm_compute. left.
  - split; [exact H1|exact H2].
Defined.

Lemma no_outcome_no_scenario_witness :
  visited [A; Z; B] = [] /\
  exists n0, forall n, n0 <= n ->
    resolution (run n (test_correctness [A; Z; B] [template a_ok_then_b] a_then_b (boot ∅)))
    = Some (Fulfilled (VReport true None)).
Proof.
  destruct (no_outcome_no_scenario [A; Z; B] [template a_ok_then_b] a_then_b (boot ∅))
    as (H1 & _ & _ & H4).
  - exists Z. split; [right; left|reflexivity].
  - split; [exact H1|exact H4].
Defined.



Lemma no_template_no_pass_witness :
  exists n0, forall n, n0 <= n -> exists description,
    resolution (run n (test_correctness [A] [] only_a (boot ∅)))
    = Some (Fulfilled (VReport false (Some description))).
Proof.
  apply (proj2 (no_template_no_pass [A] only_a (boot ∅))). vm_compute. discriminate.
Defined.

(** *** The scenarios are not run one after another *)

(** Two scenarios: the pattern is invoked for the second before the first
    is validated. *)
Lemma scenarios_not_one_after_another :
  mark <$> since (boot ∅) (run 20 (test_correctness [A] [] only_a (boot ∅)))
  = [Invoked 0; Invoked 1; Validated 0; Validated 1] /\
  ~ one_after_another
      (mark <$> since (boot ∅) (run 20 (test_correctness [A] [] only_a (boot ∅)))).
Proof.
  assert (mark <$> since (boot ∅) (run 20 (test_correctness [A] [] only_a (boot ∅)))
          = [Invoked 0; Invoked 1; Validated 0; Validated 1]) as E
    by (vm_compute; reflexivity).
  split; [exact E|]. rewrite E. intros H.
  specialize (H 0 1 2 eq_refl eq_refl). lia.
Qed.

(** *** The same inputs, another result *)



(** * Further properties *)

(** ** The permutation generator *)

(** X1. The permutations of a list of actions that is a concatenation are
    the concatenations of a permutation of the first part and a permutation
    of the second, the second varying fastest. *)
Theorem visited_app (args1 args2 : list Action) :
  visited (args1 ++ args2)
  = p1 ← visited args1; (fun p2 => p1 ++ p2) <$> visited args2.
Proof. rewrite !visited_nested. apply nested_app. Qed.

(** X2. When no action lists the same outcome producer twice, no two calls of
    the callback receive the same choice of outcomes: every combination is
    tried once. *)
Theorem visited_distinct (args : list Action) :
  Forall (fun a => NoDup (oid <$> action_outcomes a)) args ->
  NoDup (choices <$> visited args).
Proof. rewrite visited_nested. apply NoDup_choices. Qed.

Lemma visited_distinct_witness : NoDup (choices <$> visited [A; B; A]).
Proof.
  apply (visited_distinct [A; B; A]).
  apply (bool_decide_unpack _). vm_compute. exact I.
Defined.

(** ** The sequence validator *)

(** X3. Whatever a template entry holds, a record fits it when and only when
    the entry has one element, or the recorded outcome is identical to an
    outcome function listed after the first element: an entry with no
    element fits nothing, and an action object listed among the outcomes
    matches nothing. *)
Theorem action_fits_pattern_listed (r : Chosen) (valid_action : list TplItem) :
  action_fits_pattern r valid_action = true <->
  length valid_action = 1 \/
  exists o, ItOutcome o ∈ drop 1 valid_action /\ oid o = oid (outcome r).
Proof.
  unfold action_fits_pattern.
  destruct (Nat.eqb_spec (length valid_action) 1) as [E|N].
  - split; [by left|done].
  - rewrite outcome_loop_listed. split; [by right|]. by intros [?|?].
Qed.

(** X4. On any template, well formed or not, [sequence_fits_pattern] returns
    [true] when and only when the lengths are equal and every record passes
    the name test and the outcome test of the entry at its position. *)
Theorem sequence_fits_pattern_true (S : list Chosen) (T : list (list TplItem)) :
  sequence_fits_pattern S T = Returned true <->
  length S = length T /\
  forall i r en, S !! i = Some r -> T !! i = Some en -> position_fits r en.
Proof.
  unfold sequence_fits_pattern.
  destruct (Nat.eqb_spec (length S) (length T)) as [E|N]; cbn [negb].
  - rewrite fits_loop_true by done. split; [by intros H|by intros [_ H]].
  - split; [done|by intros [? _]].
Qed.


(** X6. [is_valid_sequence] has no early exit.  It throws when and only when
    some template of the list makes [sequence_fits_pattern] throw, even if
    another template fits; otherwise it returns [true] when some template
    fits and [false] when none does. *)
Theorem is_valid_sequence_every_template (S : list Chosen) (V : list (list (list TplItem))) :
  (is_valid_sequence S V = Threw type_error <->
   exists T, T ∈ V /\ sequence_fits_pattern S T = Threw type_error) /\
  (is_valid_sequence S V = Returned true <->
   (forall T, T ∈ V -> exists b, sequence_fits_pattern S T = Returned b) /\
   exists T, T ∈ V /\ sequence_fits_pattern S T = Returned true) /\
  (is_valid_sequence S V = Returned false <->
   forall T, T ∈ V -> sequence_fits_pattern S T = Returned false).
Proof.
  unfold is_valid_sequence. rewrite valid_loop_closed. cbn [orb].
  assert (existsb (throws_b S) V = true <->
          exists T, T ∈ V /\ sequence_fits_pattern S T = Threw type_error) as Hthrows.
  { rewrite existsb_elem_of. split; intros (T & HT & H); exists T; (split; [done|]).
    - unfold throws_b in H. destruct (sequence_fits_pattern S T) eqn:E; [done|].
      by rewrite (sequence_fits_throws_type_error _ _ _ E).
    - unfold throws_b. by rewrite H. }
  assert (existsb (fits_b S) V = true <->
          exists T, T ∈ V /\ sequence_fits_pattern S T = Returned true) as Hfits.
  { rewrite existsb_elem_of. split; intros (T & HT & H); exists T; (split; [done|]).
    - unfold fits_b in H. by destruct (sequence_fits_pattern S T) as [[|]|].
    - unfold fits_b. by rewrite H. }
  assert (existsb (throws_b S) V = false <->
          forall T, T ∈ V -> exists b, sequence_fits_pattern S T = Returned b) as Hreturns.
  { rewrite <- not_true_iff_false, Hthrows. split.
    - intros Hno T HT. destruct (sequence_fits_pattern S T) as [b|e] eqn:E; [by exists b|].
      destruct Hno. exists T. split; [done|].
      by rewrite <- (sequence_fits_throws_type_error _ _ _ E).
    - intros Hall (T & HT & H). destruct (Hall T HT) as [b Hb]. congruence. }
  split_and!.
  - rewrite <- Hthrows. by destruct (existsb (throws_b S) V).
  - rewrite <- Hreturns, <- Hfits.
    destruct (existsb (throws_b S) V), (existsb (fits_b S) V); split; try done;
      by intros [? ?].
  - destruct (existsb (throws_b S) V).
    + split; [done|]. intros Hall. destruct (proj1 Hthrows eq_refl) as (T & HT & H).
      rewrite (Hall T HT) in H. done.
    + destruct (existsb (fits_b S) V).
      * split; [done|]. intros Hall. destruct (proj1 Hfits eq_refl) as (T & HT & H).
        rewrite (Hall T HT) in H. done.
      * split; [|done]. intros _ T HT.
        destruct (proj1 Hreturns eq_refl T HT) as [[|] Hb]; [|done].
        assert (false = true) as Hf by (apply Hfits; by exists T). done.
Qed.

(** X7. The verdict does not depend on the order of the templates, nor on
    how often one is listed. *)
Theorem is_valid_sequence_unordered (S : list Chosen) (V V' : list (list (list TplItem))) :
  (forall T, T ∈ V <-> T ∈ V') ->
  is_valid_sequence S V = is_valid_sequence S V'.
Proof.
  intros H. unfold is_valid_sequence. rewrite !valid_loop_closed.
  assert (forall f : list (list TplItem) -> bool, existsb f V = existsb f V') as E.
  { intros f. apply eq_true_iff_eq. rewrite !existsb_elem_of.
    split; intros (x & Hx & Hf); exists x; (split; [by apply H|done]). }
  by rewrite !E.
Qed.

Lemma is_valid_sequence_unordered_witness :
  is_valid_sequence [pick A fail] [template a_ok_then_b; template a_fail]
  = is_valid_sequence [pick A fail] [template a_fail; template a_ok_then_b; template a_fail].
Proof.
  apply (is_valid_sequence_unordered [pick A fail]).
  intros T. rewrite !elem_of_cons. tauto.
Defined.

(** X8. The empty sequence is valid when and only when the empty template is
    listed, and validating it never throws, whatever the entries of the
    other templates. *)
Theorem is_valid_sequence_empty (V : list (list (list TplItem))) :
  exists verdict,
    is_valid_sequence [] V = Returned verdict /\
    (verdict = true <-> [] ∈ V).
Proof. exact (is_valid_sequence_nil V). Qed.



(** ** Patterns that leave nothing for later, and settled promises *)

(** X10. When the pattern under test does all its calls before it returns
    and no job is waiting when [test_correctness] is called, the heap is
    never written after [test_correctness] has returned, and every scenario
    is validated on the sequence that its invocation recorded. *)
Theorem synchronous_pattern_validated_as_recorded (actions : list Action)
    (valid_sequences : list (list (list TplItem))) (pattern_to_test : Code)
    (st : State) (n : nat) :
  synchronous pattern_to_test -> jobs st = [] ->
  let s0 := test_correctness actions valid_sequences pattern_to_test st in
  heap (run n s0) = heap s0 /\
  forall k permutation snapshot verdict,
    EvValidate k permutation snapshot verdict ∈ since st (run n s0) ->
    snapshot = read k s0.
Proof.
  intros Hs Hj s0.
  pose proof (test_correctness_quiet actions valid_sequences pattern_to_test st Hs Hj) as Hq.
  fold s0 in Hq. split; [by apply run_quiet|].
  intros k permutation snapshot verdict H.
  apply (quiet_snapshots n s0 Hq k permutation snapshot verdict).
  destruct (sync_phase valid_sequences actions pattern_to_test st) as (_ & _ & _ & _ & Ht & _).
  fold s0 in Ht.
  destruct (later_snapshots n s0) as ((new & Hnew) & _).
  rewrite (since_app st _ ((EvInvoke <$> seq (length (heap st)) (length (visited actions))) ++ new)) in H
    by (by rewrite Hnew, Ht, <- app_assoc).
  rewrite (since_app s0 _ new) by done.
  apply elem_of_app in H as [H|H]; [|done].
  apply list_elem_of_fmap in H as (? & ? & _). done.
Qed.

Lemma synchronous_pattern_validated_as_recorded_witness :
  heap (run 20 (test_correctness [A; B] [template a_ok_then_b] a_then_b (boot ∅)))
  = [[pick A ok; pick B ok']; [pick A fail]].
Proof.
  destruct (synchronous_pattern_validated_as_recorded [A; B] [template a_ok_then_b]
              a_then_b (boot ∅) 20) as [H _].
  - constructor. intros [v|e]; constructor. intros [v'|e']; constructor.
  - reflexivity.
  - rewrite H. reflexivity.
Defined.

(** X11. Once the promise returned by [test_correctness] is settled, its
    result, the failures, the console and the trace are final: what pattern
    code does in later jobs is recorded in its sequence but never validated
    nor reported. *)
Theorem settled_is_final (actions : list Action)
    (valid_sequences : list (list (list TplItem))) (pattern_to_test : Code)
    (st : State) (n m : nat) :
  let s0 := test_correctness actions valid_sequences pattern_to_test st in
  chain (run n s0) = [] -> n <= m ->
  resolution (run m s0) = resolution (run n s0) /\
  failures (run m s0) = failures (run n s0) /\
  console (run m s0) = console (run n s0) /\
  trace (run m s0) = trace (run n s0).
Proof.
  intros s0 Hc Hnm. replace m with (n + (m - n)) by lia. rewrite run_add.
  pose proof (run_settled (m - n) _ Hc) as H.
  apply harness_eq in H as (H1 & H2 & H3 & H4 & H5). unfold resolution.
  by rewrite H1, H2, H3, H4, H5.
Qed.

(** The call of [b] that comes after the validation is recorded and goes
    unnoticed. *)
Lemma settled_is_final_witness :
  resolution (run 30 (test_correctness [C; B] [template c_then_b]
                        (c_then_b_after 8) (boot ∅)))
  = resolution (run 8 (test_correctness [C; B] [template c_then_b]
                         (c_then_b_after 8) (boot ∅))) /\
  read 0 (run 8 (test_correctness [C; B] [template c_then_b]
                   (c_then_b_after 8) (boot ∅))) = [pick C ok] /\
  read 0 (run 30 (test_correctness [C; B] [template c_then_b]
                    (c_then_b_after 8) (boot ∅))) = [pick C ok; pick B ok'].
Proof.
  destruct (settled_is_final [C; B] [template c_then_b] (c_then_b_after 8) (boot ∅) 8 30)
    as [H _].
  - vm_compute. reflexivity.
  - lia.
  - split; [exact H|]. split; vm_compute; reflexivity.
Defined.

(** ** The sequences of the scenarios *)

(** X12. A scenario's sequence only ever holds records of its own
    permutation: whatever the pattern does, at once or in later jobs, and
    whatever pattern code of earlier runs is still waiting, no call made for
    another scenario, nor for another run, is recorded in it. *)
Theorem sequences_are_isolated (actions : list Action)
    (valid_sequences : list (list (list TplItem))) (pattern_to_test : Code)
    (st : State) (n j : nat) (permutation : list Chosen) (r : Chosen) :
  Forall (foreign (length (heap st))) (jobs st) ->
  visited actions !! j = Some permutation ->
  r ∈ read (length (heap st) + j)
         (run n (test_correctness actions valid_sequences pattern_to_test st)) ->
  r ∈ permutation.
Proof.
  intros Hf Hj Hr.
  pose proof (run_owned _ n _ (test_correctness_owned actions valid_sequences
                                 pattern_to_test st Hf)) as [Hh _].
  destruct (Hh _ _ Hr) as [H|(p & Hp & Hin)]; [lia|].
  replace (length (heap st) + j - length (heap st)) with j in Hp by lia.
  congruence.
Qed.

(** A run started while pattern code of an earlier run is still waiting. *)
Lemma sequences_are_isolated_witness :
  pick B ok' ∈ [pick A ok; pick B ok'].
Proof.
  apply (sequences_are_isolated [A; B] [template a_ok_then_b] a_then_later_b
           (run 8 (test_correctness [C; B] [template c_then_b] (c_then_b_after 8) (boot ∅)))
           20 0).
  - vm_compute. repeat constructor.
  - vm_compute. reflexivity.
  - vm_compute. repeat constructor.
Defined.

(** ** Verdicts *)



(** X14. When a validation throws, the validations stop there: the
    permutations validated are those up to the one whose validation threw,
    the later ones are never validated, and the failures found before are
    left in [failures], unreported, the returned promise being fulfilled
    with the exception. *)
Theorem fault_hides_the_other_scenarios (actions : list Action)
    (valid_sequences : list (list (list TplItem))) (pattern_to_test : Code)
    (st : State) (n : nat) (e : jsval) :
  let s := run n (test_correctness actions valid_sequences pattern_to_test st) in
  chain s = [] ->
  e ∈ faults_of (since st s) ->
  exists validated_before permutation never_validated,
    visited actions = validated_before ++ permutation :: never_validated /\
    validated_of (since st s) = validated_before ++ [permutation] /\
    failures s = failures_of (since st s) /\
    resolution s = Some (Fulfilled e).
Proof.
  intros s Hc He.
  destruct (invocations_silent (length (heap st)) (length (visited actions)))
    as (I1 & I2 & I3).
  destruct (at_rest valid_sequences actions pattern_to_test st n Hc)
    as [(events & Hs & Hval & _)
       |(dn & permutation & todo & events & snapshot & e' & Hvis & Hs & Hval & _ & Hse & Hfa & _)].
  all: fold s in Hs; rewrite Hs in *.
  all: destruct (validated_summary _ _ _ _ Hval) as (Hv1 & Hv2 & _).
  all: rewrite ?faults_of_app, ?I3, ?Hv2 in He; cbn in He.
  - by apply elem_of_nil in He.
  - apply list_elem_of_singleton in He as ->.
    exists dn, permutation, todo. fold s in Hse, Hfa. split_and!.
    + done.
    + by rewrite !validated_of_app, I2, Hv1.
    + rewrite Hfa, !failures_of_app, I1. cbn. by rewrite app_nil_r.
    + unfold resolution. by rewrite Hc, Hse.
Qed.

(** The first scenario is judged invalid, the validation of the second
    throws: the failure of the first is not reported. *)
Lemma fault_hides_the_other_scenarios_witness :
  failures (run 20 (test_correctness [A; B] [empty_entry] a_then_b (boot ∅)))
  = [failure_message [pick A ok; pick B ok'] [pick A ok; pick B ok']] /\
  resolution (run 20 (test_correctness [A; B] [empty_entry] a_then_b (boot ∅)))
  = Some (Fulfilled type_error).
Proof.
  destruct (fault_hides_the_other_scenarios [A; B] [empty_entry] a_then_b (boot ∅) 20
              type_error) as (dn & p & todo & _ & _ & _ & H).
  - vm_compute. reflexivity.
  - vm_compute. left.
  - split; [|exact H]. vm_compute. reflexivity.
Defined.

(** X15. For a pattern that does all its calls before it returns, and with
    no job waiting at the call of [test_correctness], the returned promise
    is fulfilled with [{passed: true}] exactly when the sequence that each
    scenario had recorded when [test_correctness] returned is valid. *)
Theorem synchronous_pattern_verdict (actions : list Action)
    (valid_sequences : list (list (list TplItem))) (pattern_to_test : Code) (st : State) :
  synchronous pattern_to_test -> jobs st = [] ->
  let s0 := test_correctness actions valid_sequences pattern_to_test st in
  exists n0, forall n, n0 <= n ->
    (resolution (run n s0) = Some (Fulfilled (VReport true None)) <->
     forall j, j < length (visited actions) ->
       is_valid_sequence (read (length (heap st) + j) s0) valid_sequences = Returned true).
Proof.
  intros Hsync Hjobs s0.
  pose proof (test_correctness_quiet actions valid_sequences pattern_to_test st Hsync Hjobs)
    as Hq.
  destruct (resolves valid_sequences actions pattern_to_test st) as [n0 Hn0].
  exists n0. intros n Hn. specialize (Hn0 n Hn). fold s0 in Hn0, Hq.
  destruct (sync_phase valid_sequences actions pattern_to_test st) as (_ & _ & _ & _ & Ht & _).
  fold s0 in Ht.
  destruct (later_snapshots n s0) as ((new & Hnew) & _).
  assert (since st (run n s0)
          = invocations (length (heap st)) (length (visited actions)) ++ new) as Hsince.
  { apply since_app. by rewrite Hnew, Ht, <- app_assoc. }
  assert (forall k p s v, EvValidate k p s v ∈ new -> s = read k s0) as Hsnap.
  { intros k p s v Hin. apply (quiet_snapshots n s0 Hq k p s v).
    by rewrite (since_app s0 _ new). }
  unfold resolution. rewrite Hn0.
  destruct (at_rest valid_sequences actions pattern_to_test st n Hn0)
    as [(events & Hs & Hval & Hse & Hfa & _)
       |(dn & permutation & todo & events & snapshot & e & Hvis & Hs & _ & Hthrow & Hse & _)];
    fold s0 in Hs, Hse; rewrite Hsince in Hs; apply app_inv_head in Hs; rewrite Hse.
  - fold s0 in Hfa. rewrite Hfa. split.
    + intros [= Hr%report_passed] j Hj.
      destruct (validations_all_true _ _ _ _ Hval Hr j Hj) as (p & s & Hin).
      destruct (validated_summary _ _ _ _ Hval) as (_ & _ & _ & Hjudged).
      rewrite Forall_forall in Hjudged.
      destruct (Hjudged _ Hin) as (k' & p' & s' & b' & [= <- <- <- <-] & Hb).
      by rewrite <- (Hsnap _ p s (Returned true)) by (by rewrite Hs).
    + intros Hall. do 2 f_equal. apply report_passed. apply failures_of_passed.
      destruct (validated_summary _ _ _ _ Hval) as (_ & _ & _ & Hjudged).
      pose proof (validations_numbered _ _ _ _ Hval) as Hnum.
      rewrite Forall_forall in Hjudged, Hnum. rewrite Forall_forall. intros ev Hev.
      destruct (Hnum ev Hev) as (j & p & s & b & -> & Hj).
      destruct (Hjudged _ Hev) as (k' & p' & s' & b' & [= <- <- <- <-] & Hb).
      exists (length (heap st) + j), p, s. do 2 f_equal.
      rewrite (Hsnap _ p s (Returned b)) in Hb by (by rewrite Hs).
      rewrite Hall in Hb by done. congruence.
  - assert (snapshot = read (length (heap st) + length dn) s0) as ->.
    { apply (Hsnap _ permutation snapshot (Threw e)).
      rewrite Hs. apply elem_of_app. right. by apply list_elem_of_singleton. }
    split.
    + intros [= ->]. by apply validator_throws in Hthrow.
    + intros Hall. rewrite Hall in Hthrow; [done|]. rewrite Hvis, length_app. cbn. lia.
Qed.

(** Both scenarios of [a_then_b] are valid, the second by the template
    [[[A, fail]]]. *)
Lemma synchronous_pattern_verdict_witness :
  exists n0, forall n, n0 <= n ->
    resolution (run n (test_correctness [A; B] [template a_ok_then_b; template a_fail]
                         a_then_b (boot ∅)))
    = Some (Fulfilled (VReport true None)).
Proof.
  destruct (synchronous_pattern_verdict [A; B] [template a_ok_then_b; template a_fail]
              a_then_b (boot ∅)) as [n0 H].
  - constructor. intros [v|e]; constructor. intros [v'|e']; constructor.
  - reflexivity.
  - exists n0. intros n Hn. apply (H n Hn).
    intros [|[|j]] Hj; [vm_compute; reflexivity..|]. cbn in Hj. lia.
Defined.

(** ** What the pattern returns *)

(** X16. What the pattern returns or throws is never looked at: two
    patterns that make the same calls and leave the same calls for later
    get the same result, failures, console output and validations, and
    leave the same sequences, whether they return a value, a promise that
    is fulfilled or rejected, or throw. *)
Theorem returned_value_is_ignored (actions : list Action)
    (valid_sequences : list (list (list TplItem))) (pattern_to_test pattern' : Code)
    (st : State) (n : nat) :
  same_calls pattern_to_test pattern' ->
  let s := run n (test_correctness actions valid_sequences pattern_to_test st) in
  let s' := run n (test_correctness actions valid_sequences pattern' st) in
  resolution s = resolution s' /\ failures s = failures s' /\
  console s = console s' /\ trace s = trace s' /\
  heap s = heap s' /\ world s = world s'.
Proof.
  intros Hcode s s'.
  pose proof (run_alike n _ _ (test_correctness_alike actions valid_sequences
                                 pattern_to_test pattern' st Hcode))
    as (Hw & Hh & _ & Hc & Hs & Hf & Hco & Ht & _).
  fold s s' in Hw, Hh, Hc, Hs, Hf, Hco, Ht. split_and!; try done.
  unfold resolution. rewrite Hs. by destruct Hc.
Qed.

Lemma returned_value_is_ignored_witness :
  resolution (run 20 (test_correctness [A; B] [template a_ok_then_b; template a_fail]
                        a_then_later_b (boot ∅)))
  = resolution (run 20 (test_correctness [A; B] [template a_ok_then_b; template a_fail]
                          a_then_later_b_rejected (boot ∅))).
Proof.
  apply (returned_value_is_ignored [A; B] [template a_ok_then_b; template a_fail]
           a_then_later_b a_then_later_b_rejected (boot ∅) 20).
  apply same_calls_call. intros [v|e].
  - apply same_calls_later; [|by apply same_calls_end].
    apply same_calls_call. intros _. by apply same_calls_end.
  - by apply same_calls_end.
Defined.

(** ** No action *)

(** X17. With no action there is one scenario, the pattern is invoked
    without any argument, and the sequence that is validated is empty
    whatever the pattern does: the returned promise is fulfilled with
    [{passed: true}] when the empty template is listed and with
    [{passed: false, ...}] when it is not. *)
Theorem no_action_one_scenario (valid_sequences : list (list (list TplItem)))
    (pattern_to_test : Code) (st : State) :
  Forall (foreign (length (heap st))) (jobs st) ->
  visited [] = [[]] /\
  exists n0, forall n, n0 <= n ->
    let s := run n (test_correctness [] valid_sequences pattern_to_test st) in
    ([] ∈ valid_sequences -> resolution s = Some (Fulfilled (VReport true None))) /\
    ([] ∉ valid_sequences ->
     resolution s = Some (Fulfilled (VReport false (Some (failure_message [] []))))).
Proof.
  intros Hf. split; [done|].
  set (s0 := test_correctness [] valid_sequences pattern_to_test st).
  destruct (resolves valid_sequences [] pattern_to_test st) as [n0 Hn0].
  exists n0. intros n Hn. specialize (Hn0 n Hn). fold s0 in Hn0. cbn zeta.
  destruct (sync_phase valid_sequences [] pattern_to_test st) as (_ & _ & _ & _ & Ht & _).
  fold s0 in Ht.
  destruct (later_snapshots n s0) as ((new & Hnew) & _).
  assert (since st (run n s0) = invocations (length (heap st)) (length (visited [])) ++ new)
    as Hsince.
  { apply since_app. by rewrite Hnew, Ht, <- app_assoc. }
  assert (forall p s v, EvValidate (length (heap st) + 0) p s v ∈ new -> s = []) as Hsnap.
  { intros p s v Hin.
    destruct (snapshots_read n s0 (length (heap st) + 0) p s v) as (m & _ & ->);
      [by rewrite (since_app s0 _ new)|].
    pose proof (run_owned _ m _ (test_correctness_owned [] valid_sequences
                                   pattern_to_test st Hf)) as [Hh _].
    fold s0 in Hh. destruct (read _ (run m s0)) as [|r rs] eqn:E; [done|].
    destruct (Hh (length (heap st) + 0) r) as [H|(q & Hq & Hr)].
    - rewrite E. by left.
    - lia.
    - replace (length (heap st) + 0 - length (heap st)) with 0 in Hq by lia.
      injection Hq as <-. by apply elem_of_nil in Hr. }
  destruct (is_valid_sequence_nil valid_sequences) as (b & Hb & Hlisted).
  unfold resolution. fold s0. rewrite Hn0.
  destruct (at_rest valid_sequences [] pattern_to_test st n Hn0)
    as [(events & Hs & Hval & Hse & Hfa & _)
       |(dn & permutation & todo & events & snapshot & e & Hvis & Hs & _ & Hthrow & _)];
    fold s0 in Hs; rewrite Hsince in Hs; apply app_inv_head in Hs.
  - fold s0 in Hse, Hfa. rewrite Hse, Hfa.
    destruct (validated_summary _ _ _ _ Hval) as (Hof & _ & Hmark & Hjudged).
    pose proof (validations_numbered _ _ _ _ Hval) as Hnum.
    apply (f_equal length) in Hmark. rewrite !length_fmap, length_seq in Hmark.
    change (visited []) with ([[]] : list (list Chosen)) in Hof, Hmark, Hnum.
    destruct events as [|ev [|ev' events]]; [done| |done].
    apply Forall_cons in Hnum as [(j & p & s & b' & -> & Hj) _].
    apply Forall_cons in Hjudged as [(k' & p' & s' & b'' & [= <- <- <- <-] & Hb') _].
    cbn in Hj. assert (j = 0) as -> by lia.
    cbn in Hof. injection Hof as ->.
    rewrite (Hsnap [] s (Returned b')) in * by (rewrite Hs; by left).
    rewrite Hb in Hb'. injection Hb' as <-.
    split; intros Hin.
    + rewrite (proj2 Hlisted Hin). done.
    + destruct b; [by destruct Hin; apply Hlisted|]. done.
  - destruct dn as [|? [|? ?]]; [|done..]. injection Hvis as <- <-.
    rewrite (Hsnap [] snapshot (Threw e)) in Hthrow.
    + by rewrite Hb in Hthrow.
    + rewrite Hs. apply elem_of_app. right. by left.
Qed.

(** The pattern calls an argument that it was not given, and returns. *)
Lemma no_action_one_scenario_witness :
  exists n0, forall n, n0 <= n ->
    resolution (run n (test_correctness [] [[]; template a_fail]
                         (Call 0 (fun _ => Return VUndefined)) (boot ∅)))
    = Some (Fulfilled (VReport true None)).
Proof.
  destruct (no_action_one_scenario [[]; template a_fail]
              (Call 0 (fun _ => Return VUndefined)) (boot ∅)) as [_ [n0 H]].
  - constructor.
  - exists n0. intros n Hn. apply (H n Hn). by left.
Defined.
